(** * LLM Performance Visualiser: the analytical core of [src/App.jsx]

    The development embeds the four calculators of [App.jsx]
    ([calculateModelParameters], [calculateOperations],
    [calculateMemoryReads], [calculateThroughput]), the effect that sweeps
    the sequence length and publishes the two curves, and the [useDebounce]
    hook, and proves the properties the specification states about them.
    It also embeds the hardware controls ([clamp], [ranges], [numChange],
    [slideChange]) and proves further properties of all of these.

    Numbers.  JavaScript has one numeric type.  It is modelled by [number]:
    NaN, the two infinities, the two zeros and the finite values.  A finite
    value is an exact rational: the rounding of binary64 and its overflow
    are not modelled, every other rule of the arithmetic (signs of zeros,
    division by zero, propagation of NaN) is. *)

From Stdlib Require Import ZArith QArith Qround Qreduction Lia Lqa.
From Stdlib Require Import Bool String Ascii List DecimalString.
From ExtLib Require Import Structures.Monad Structures.MonadExc.
From ExtLib Require Import Data.Monads.EitherMonad.
Import ListNotations MonadNotation.
Local Open Scope monad_scope.
Local Open Scope string_scope.
Local Open Scope list_scope.
Close Scope Q_scope.
Set Warnings "-register-all".

(** ** Numbers *)

Inductive number : Type :=
| NaN
| Inf (neg : bool)
| NegZero
| Fin (q : Q).

Declare Scope js_scope.
Delimit Scope js_scope with js.
Bind Scope js_scope with number.

Definition number_of_Z (z : Z) : number := Fin (inject_Z z).

Definition Z_of_number (n : number) : option Z :=
  match n with
  | Fin (Qmake z 1) => Some z
  | _ => None
  end.

Number Notation number number_of_Z Z_of_number : js_scope.

(** The sign bit: [true] for negative values, for [-0] and for [-Infinity]. *)
Definition negative (x : number) : bool :=
  match x with
  | NaN => false
  | Inf s => s
  | NegZero => true
  | Fin q => (Qnum q <? 0)%Z
  end.

Definition is_zero (x : number) : bool :=
  match x with
  | NegZero => true
  | Fin q => Qeq_bool q 0
  | _ => false
  end.

(** The rational a finite number stands for ([0] for the others). *)
Definition magnitude (x : number) : Q :=
  match x with
  | Fin q => q
  | _ => 0%Q
  end.

(** A finite result, in lowest terms; a zero result takes the sign [neg]. *)
Definition fin (neg : bool) (q : Q) : number :=
  if neg && Qeq_bool q 0 then NegZero else Fin (Qred q).

(** [x * y] (Number::multiply). *)
Definition mul (x y : number) : number :=
  match x, y with
  | NaN, _ | _, NaN => NaN
  | Inf s, Inf t => Inf (xorb s t)
  | Inf s, z | z, Inf s => if is_zero z then NaN else Inf (xorb s (negative z))
  | _, _ => fin (xorb (negative x) (negative y)) (magnitude x * magnitude y)
  end.

(** [x / y] (Number::divide). *)
Definition div (x y : number) : number :=
  match x, y with
  | NaN, _ | _, NaN => NaN
  | Inf _, Inf _ => NaN
  | Inf s, z => Inf (xorb s (negative z))
  | z, Inf t => fin (xorb (negative z) t) 0
  | _, _ =>
      if is_zero y then
        if is_zero x then NaN else Inf (xorb (negative x) (negative y))
      else fin (xorb (negative x) (negative y)) (magnitude x / magnitude y)
  end.

(** [x + y] (Number::add). *)
Definition add (x y : number) : number :=
  match x, y with
  | NaN, _ | _, NaN => NaN
  | Inf s, Inf t => if Bool.eqb s t then Inf s else NaN
  | Inf s, _ | _, Inf s => Inf s
  | NegZero, NegZero => NegZero
  | _, _ => fin false (magnitude x + magnitude y)
  end.

(** [base ** n] for a literal exponent [n] that is a natural number: the
    product of [n] copies of [base] ([x ** 0] is [1], also for NaN). *)
Definition exponentiate (base : number) (n : N) : number :=
  N.iter n (mul base) 1%js.

Arguments exponentiate _%_js _%_N.

(** [x <= y]: false as soon as one side is NaN. *)
Definition le (x y : number) : bool :=
  match x, y with
  | NaN, _ | _, NaN => false
  | Inf true, _ | _, Inf false => true
  | Inf false, _ | _, Inf true => false
  | _, _ => Qle_bool (magnitude x) (magnitude y)
  end.

Definition Math_floor (x : number) : number :=
  match x with
  | Fin q => Fin (inject_Z (Qfloor q))
  | _ => x
  end.

(** [Math.max(x, y)]: NaN if one argument is, and [+0] is above [-0]. *)
Definition Math_max (x y : number) : number :=
  match x, y with
  | NaN, _ | _, NaN => NaN
  | _, _ =>
      if le x y then
        if le y x then (if negative x then y else x) else y
      else x
  end.

Infix "+" := add : js_scope.
Infix "*" := mul : js_scope.
Infix "/" := div : js_scope.
Infix "<=?" := le : js_scope.
Notation "x ** n" := (exponentiate x n) (at level 30, right associativity) : js_scope.

(** ** Values *)

(** What [JSON.parse] builds, [undefined] (a property that is not there)
    and the built-in functions an object inherits. *)
Inductive value : Type :=
| VUndefined
| VNull
| VBool (b : bool)
| VNumber (n : number)
| VString (s : string)
| VArray (elems : list value)
| VObject (props : list (string * value))
| VFunction (name : string).

Inductive exn : Type := SyntaxError | TypeError.

(** A call either returns or throws. *)
Definition completion : Type -> Type := sum exn.

(** A numeric expression: a number, unless the conversion of an operand
    has thrown. *)
Definition numeric : Type := completion number.

Definition of_number (n : number) : numeric := inr n.

#[local] Coercion of_number : number >-> numeric.

(** A binary operator converts its left operand, then its right one. *)
Definition binary (op : number -> number -> number) (x y : numeric) : numeric :=
  a <- x ;; b <- y ;; ret (op a b).

Definition power (x : numeric) (n : N) : numeric :=
  a <- x ;; ret (exponentiate a n).

Declare Scope expr_scope.
Delimit Scope expr_scope with expr.
Bind Scope expr_scope with numeric.
Arguments power _%_expr _%_N.

Infix "+" := (binary add) : expr_scope.
Infix "*" := (binary mul) : expr_scope.
Infix "/" := (binary div) : expr_scope.
Notation "x ** n" := (power x n) (at level 30, right associativity) : expr_scope.

(** The host: the parts of the JavaScript engine the program calls and
    this development does not define.  [JSON_parse] throws [SyntaxError] on
    a text that is not JSON; [StringToNumber] and [NumberToString] are the
    conversions between strings and numbers; [FunctionToString] is the
    implementation-defined source text of a built-in function. *)
Record Host : Type := {
  JSON_parse : string -> completion value;
  StringToNumber : string -> number;
  NumberToString : number -> string;
  FunctionToString : string -> string
}.

Fixpoint assoc {A : Type} (k : string) (l : list (string * A)) : option A :=
  match l with
  | [] => None
  | (k', v) :: rest => if String.eqb k k' then Some v else assoc k rest
  end.

(** The properties of [Object.prototype]; [__proto__] reads the prototype
    of the receiver, which for an object literal and for a parsed object is
    [Object.prototype] itself, an object. *)
Definition Object_prototype : list (string * value) :=
  [ ("constructor", VFunction "Object");
    ("__defineGetter__", VFunction "__defineGetter__");
    ("__defineSetter__", VFunction "__defineSetter__");
    ("hasOwnProperty", VFunction "hasOwnProperty");
    ("__lookupGetter__", VFunction "__lookupGetter__");
    ("__lookupSetter__", VFunction "__lookupSetter__");
    ("isPrototypeOf", VFunction "isPrototypeOf");
    ("propertyIsEnumerable", VFunction "propertyIsEnumerable");
    ("toString", VFunction "toString");
    ("valueOf", VFunction "valueOf");
    ("__proto__", VObject []);
    ("toLocaleString", VFunction "toLocaleString") ].

(** [o[k]] and [o.k].  An object answers with its own property, else with
    the inherited one, else with [undefined].  For the other values the
    answer is [undefined]: this holds for the nine names the program reads
    from the parsed configuration, none of which is a property of a string,
    a number, a boolean, an array or of their prototypes. *)
Definition get (o : value) (k : string) : value :=
  match o with
  | VObject props =>
      match assoc k props with
      | Some v => v
      | None =>
          match assoc k Object_prototype with
          | Some v => v
          | None => VUndefined
          end
      end
  | _ => VUndefined
  end.

(** Reading a property of [null] or [undefined] throws. *)
Definition RequireObjectCoercible (v : value) : completion unit :=
  match v with
  | VUndefined | VNull => raise TypeError
  | _ => ret tt
  end.

(** [a ?? b] *)
Definition nullish (a b : value) : value :=
  match a with
  | VUndefined | VNull => b
  | _ => a
  end.

Definition ToBoolean (v : value) : bool :=
  match v with
  | VUndefined | VNull => false
  | VBool b => b
  | VNumber NaN => false
  | VNumber n => negb (is_zero n)
  | VString s => negb (String.eqb s "")
  | VArray _ | VObject _ | VFunction _ => true
  end.

(** [xs.includes(v)] for an array [xs] of strings: SameValueZero holds
    between a string and [v] exactly when [v] is that string. *)
Definition includes (xs : list string) (v : value) : bool :=
  match v with
  | VString s => existsb (String.eqb s) xs
  | _ => false
  end.

(** One trace of the chart, [{ x: [...], y: [...] }]. *)
Module Trace.
Record t : Type := make { x : list number; y : list number }.
End Trace.

Record curves : Type := { total : Trace.t; perUser : Trace.t }.

(** The state of [App] the effect reads and writes.  [dCfg] is the
    debounced configuration text. *)
Record AppState : Type := {
  dCfg : string;
  memoryBandwidth : number;
  computePower : number;
  batchSize : number;
  maxSeqLen : number;
  throughputData : curves
}.

Definition setThroughputData (c : curves) (st : AppState) : AppState :=
  {| dCfg := dCfg st;
     memoryBandwidth := memoryBandwidth st;
     computePower := computePower st;
     batchSize := batchSize st;
     maxSeqLen := maxSeqLen st;
     throughputData := c |}.

Section Core.

Context (host : Host).

(** ToString.  An array joins the strings of its elements with commas,
    [null] and [undefined] elements counting as the empty string.  An
    object inherits [toString] from [Object.prototype] unless it has a
    property of that name of its own; a parsed value holds no function, so
    that property cannot be called, [valueOf] gives no primitive either,
    and the conversion throws. *)
Fixpoint ToString (v : value) : completion string :=
  match v with
  | VUndefined => ret "undefined"
  | VNull => ret "null"
  | VBool true => ret "true"
  | VBool false => ret "false"
  | VNumber n => ret (NumberToString host n)
  | VString s => ret s
  | VArray elems =>
      (fix join (l : list value) : completion string :=
         match l with
         | [] => ret ""
         | e :: rest =>
             s <- match e with
                  | VUndefined | VNull => ret ""
                  | _ => ToString e
                  end ;;
             match rest with
             | [] => ret s
             | _ => r <- join rest ;; ret (s ++ "," ++ r)%string
             end
         end) elems
  | VObject props =>
      match assoc "toString" props with
      | Some _ => raise TypeError
      | None => ret "[object Object]"
      end
  | VFunction f => ret (FunctionToString host f)
  end.

(** ToNumber.  An array and an object go through their strings, where the
    string of an object, ["[object Object]"], is not a numeric literal; nor
    is the source text of a built-in function. *)
Definition ToNumber (v : value) : numeric :=
  match v with
  | VUndefined => NaN
  | VNull => 0%js
  | VBool true => 1%js
  | VBool false => 0%js
  | VNumber n => n
  | VString s => StringToNumber host s
  | VArray _ => s <- ToString v ;; ret (StringToNumber host s)
  | VObject _ => ToString v ;; ret NaN
  | VFunction _ => NaN
  end.

Local Coercion ToNumber : value >-> numeric.
Local Open Scope js_scope.
Local Open Scope expr_scope.

(** *** The calculators (App.jsx, lines 59 to 113) *)

Definition calculateModelParameters (m : value) : completion number :=
  RequireObjectCoercible m ;;
  let hidden_size := get m "hidden_size" in
  let num_hidden_layers := get m "num_hidden_layers" in
  let intermediate_size := get m "intermediate_size" in
  let vocab_size := get m "vocab_size" in
  let hidden_act := get m "hidden_act" in
  let tie_word_embeddings := get m "tie_word_embeddings" in
  let num_attention_heads := get m "num_attention_heads" in
  let num_key_value_heads := get m "num_key_value_heads" in
  let isGated := includes ["silu"; "swiglu"; "geglu"] hidden_act in
  embed <-
    vocab_size * hidden_size * (if ToBoolean tie_word_embeddings then 1 else 2) ;;
  head_size <- hidden_size / num_attention_heads ;;
  attn <-
    2 * hidden_size ** 2 + 2 * hidden_size * num_key_value_heads * head_size ;;
  ffn <- (if isGated then 3 else 2) * hidden_size * intermediate_size ;;
  ln <- 4 * hidden_size ;;
  embed + num_hidden_layers * (attn + ffn + ln).

(** Every call in the program passes [seq] and [b], so the defaults
    [seq = 1, b = 1] of the two functions below are never taken. *)
Definition calculateOperations (m : value) (seq b : number) : completion number :=
  RequireObjectCoercible m ;;
  let hidden_size := get m "hidden_size" in
  let intermediate_size := get m "intermediate_size" in
  let num_hidden_layers := get m "num_hidden_layers" in
  let num_attention_heads := get m "num_attention_heads" in
  let num_key_value_heads := get m "num_key_value_heads" in
  let vocab_size := get m "vocab_size" in
  let hidden_act := get m "hidden_act" in
  let isGated := includes ["silu"; "swiglu"; "geglu"] hidden_act in
  let actCost : number := if isGated then 3 else 1 in
  kvScale <- num_key_value_heads / num_attention_heads ;;
  attention <-
    2 * hidden_size ** 2 * (2 + 2 * kvScale) +
    4 * hidden_size * seq ;;
  feed_forward <-
    hidden_size * intermediate_size * (if isGated then 6 else 4) +
    intermediate_size * (if isGated then actCost + 1 else actCost) ;;
  lm_head <- 2 * hidden_size * vocab_size ;;
  b * (
    num_hidden_layers * (attention + feed_forward) +
    lm_head).

(** The object literal [{ float32: 4, float16: 2, bfloat16: 2 }]. *)
Definition bytes_table : value :=
  VObject [("float32", VNumber 4); ("float16", VNumber 2); ("bfloat16", VNumber 2)].

(** The tag is converted to a property key before the table is read. *)
Definition calculateMemoryReads (m : value) (seq b : number) : completion number :=
  RequireObjectCoercible m ;;
  key <- ToString (get m "torch_dtype") ;;
  let bytes := nullish (get bytes_table key) (VNumber 4) in
  kv <- b * seq * get m "num_hidden_layers" * get m "hidden_size" * 2 ;;
  params <- calculateModelParameters m ;;
  (params + kv) * bytes.

(** [console.log] on line 108 repeats two calls that have already returned
    and prints; it changes nothing the function returns. *)
Definition calculateThroughput (cfg : string) (mem flops b seq : number)
  : completion number :=
  catch
    (m <- JSON_parse host cfg ;;
     reads <- calculateMemoryReads m seq b ;;
     memT <- reads / (mem * 1000000000) ;;
     ops <- calculateOperations m seq b ;;
     compT <- ops / (flops * 1000000000000) ;;
     b / (memT + compT))
    (fun _ => ret 0%js).

Local Close Scope expr_scope.

(** *** The curves (App.jsx, lines 49 and 117 to 130) *)

(** The [for] loop of the effect, from the counter [s] on, with the three
    arrays built so far.  [None] when [fuel] iterations did not reach the
    exit of the loop. *)
Fixpoint sweep (cfg : string) (mem fl bs ms step : number)
    (fuel : nat) (s : number) (xs ty py : list number)
  : completion (option (list number * list number * list number)) :=
  if s <=? ms then
    match fuel with
    | O => ret None
    | S fuel' =>
        t <- calculateThroughput cfg mem fl bs s ;;
        sweep cfg mem fl bs ms step fuel' (s + step)
              (xs ++ [s]) (ty ++ [t]) (py ++ [t / bs])
    end
  else ret (Some (xs, ty, py)).

(** Iterations that suffice for the loop to reach its exit: the counter
    starts at [1] and grows by at least [1]. *)
Definition sweep_fuel (ms : number) : nat :=
  match ms with
  | Fin q => Z.to_nat (Qfloor q)
  | _ => O
  end.

(** The body of the effect: the state it leaves ([None]: the loop has not
    come to its exit). *)
Definition curve_effect (st : AppState) : completion (option AppState) :=
  if String.eqb (dCfg st) "" then ret (Some st)
  else
    let mem := memoryBandwidth st in
    let fl := computePower st in
    let bs := batchSize st in
    let ms := maxSeqLen st in
    let step := Math_max 1 (Math_floor (ms / 800)) in
    r <- sweep (dCfg st) mem fl bs ms step (sweep_fuel ms) 1 [] [] [] ;;
    match r with
    | Some (xs, ty, py) =>
        ret (Some (setThroughputData
                     {| total := Trace.make xs ty; perUser := Trace.make xs py |} st))
    | None => ret None
    end.

End Core.

(** *** The debounce (App.jsx, lines 31 to 38 and 116)

    [useDebounce] runs on React and on the timers of the host.  The world
    below is what the hook can see of them: a clock in milliseconds, the
    live timers, the two pieces of state ([config] and the debounced copy
    the curve effect depends on) and the timer the cleanup of the last
    effect will clear.  A state setter called with the value the state
    already has causes no render; an effect runs after a render in which
    one of its dependencies has changed, after the cleanup of its previous
    run. *)

Record timer : Type := { id : nat; due : nat; payload : string }.

Record world : Type := {
  now : nat;
  timers : list timer;
  next_id : nat;
  config : string;
  debounced : string;
  cleanup : option nat;
  effect_runs : list string
}.

(** [setTimeout(() => setDebounced(value), delay)]: the new timer's id and
    the world with the timer in it. *)
Definition setTimeout (value : string) (delay : nat) (w : world) : nat * world :=
  (next_id w,
   {| now := now w;
      timers := timers w ++ [{| id := next_id w; due := now w + delay; payload := value |}];
      next_id := S (next_id w);
      config := config w;
      debounced := debounced w;
      cleanup := cleanup w;
      effect_runs := effect_runs w |}).

Definition clearTimeout (i : nat) (w : world) : world :=
  {| now := now w;
     timers := filter (fun tm => negb (Nat.eqb (id tm) i)) (timers w);
     next_id := next_id w;
     config := config w;
     debounced := debounced w;
     cleanup := cleanup w;
     effect_runs := effect_runs w |}.

(** The effect of [useDebounce] for the dependencies [[value, delay]]: the
    cleanup of the previous run, [clearTimeout(id)], then the body. *)
Definition useDebounce_effect (value : string) (delay : nat) (w : world) : world :=
  let w1 := match cleanup w with
            | Some i => clearTimeout i w
            | None => w
            end in
  let '(i, w2) := setTimeout value delay w1 in
  {| now := now w2;
     timers := timers w2;
     next_id := next_id w2;
     config := config w2;
     debounced := debounced w2;
     cleanup := Some i;
     effect_runs := effect_runs w2 |}.

(** [onChange]: [setConfig(e.target.value)], and the render that follows
    with [useDebounce(config, 200)]. *)
Definition setConfig (text : string) (w : world) : world :=
  if String.eqb text (config w) then w
  else
    useDebounce_effect text 200
      {| now := now w;
         timers := timers w;
         next_id := next_id w;
         config := text;
         debounced := debounced w;
         cleanup := cleanup w;
         effect_runs := effect_runs w |}.

(** [setDebounced(value)], and the render that follows: [dCfg] has changed,
    so the curve effect runs, with the new [dCfg]. *)
Definition setDebounced (value : string) (w : world) : world :=
  if String.eqb value (debounced w) then w
  else
    {| now := now w;
       timers := timers w;
       next_id := next_id w;
       config := config w;
       debounced := value;
       cleanup := cleanup w;
       effect_runs := effect_runs w ++ [value] |}.

(** The host runs the callback of a timer that has come due. *)
Definition fire (tm : timer) (w : world) : world :=
  setDebounced (payload tm)
    {| now := Nat.max (now w) (due tm);
       timers := filter (fun tm' => negb (Nat.eqb (id tm') (id tm))) (timers w);
       next_id := next_id w;
       config := config w;
       debounced := debounced w;
       cleanup := cleanup w;
       effect_runs := effect_runs w |}.

(** The timer the host runs next among those due by time [t]: the one due
    first, the older one of two due together. *)
Fixpoint next_due (t : nat) (tms : list timer) : option timer :=
  match tms with
  | [] => None
  | tm :: rest =>
      match next_due t rest with
      | Some tm' =>
          if (due tm <=? t)%nat && (due tm <=? due tm')%nat then Some tm else Some tm'
      | None => if (due tm <=? t)%nat then Some tm else None
      end
  end.

Fixpoint run_timers (fuel : nat) (t : nat) (w : world) : world :=
  match fuel with
  | O => w
  | S fuel' =>
      match next_due t (timers w) with
      | Some tm => run_timers fuel' t (fire tm w)
      | None => w
      end
  end.

(** Time passes until [t]: every timer due by then runs (a callback sets
    no timer, so the live timers bound the number of runs). *)
Definition advance (t : nat) (w : world) : world :=
  let w' := run_timers (List.length (timers w)) t w in
  {| now := Nat.max (now w') t;
     timers := timers w';
     next_id := next_id w';
     config := config w';
     debounced := debounced w';
     cleanup := cleanup w';
     effect_runs := effect_runs w' |}.

(** The first render of [App]: both states are the empty text, the effect
    of [useDebounce] sets its first timer and the curve effect runs. *)
Definition mount : world :=
  useDebounce_effect "" 200
    {| now := 0;
       timers := [];
       next_id := 0;
       config := "";
       debounced := "";
       cleanup := None;
       effect_runs := [""] |}.

(** Edits of the text field, each with the time it is made at. *)
Fixpoint edits (es : list (nat * string)) (w : world) : world :=
  match es with
  | [] => w
  | (t, text) :: rest => edits rest (setConfig text (advance t w))
  end.

(** The runs of the curve effect that went past [if (!dCfg) return;] and
    recomputed the curve, by the text they used. *)
Definition recomputes (w : world) : list string :=
  filter (fun text => negb (String.eqb text "")) (effect_runs w).

(** A burst of edits after an edit at time [t]: each edit comes less than
    200 ms after the one before it. *)
Fixpoint within_window (t : nat) (es : list (nat * string)) : Prop :=
  match es with
  | [] => True
  | (t', _) :: rest => (t <= t' /\ t' < t + 200)%nat /\ within_window t' rest
  end.

(** Each edit changes the text it finds. *)
Fixpoint changing (text : string) (es : list (nat * string)) : Prop :=
  match es with
  | [] => True
  | (_, text') :: rest => text' <> text /\ changing text' rest
  end.

(** The last element of [l], or [d] before it. *)
Fixpoint final {A : Type} (d : A) (l : list A) : A :=
  match l with
  | [] => d
  | a :: rest => final a rest
  end.

(** An edit made at time [t] to [text] is waiting: one timer is live, set
    by the last run of the effect, due 200 ms after [t], and it carries
    [text], which is the text of the field. *)
Definition pending (w : world) (t : nat) (text : string) : Prop :=
  exists tm,
    timers w = [tm] /\ payload tm = text /\ due tm = (t + 200)%nat /\
    cleanup w = Some (id tm) /\ config w = text /\ now w = t.

(** ** The formulas of the specification (sections 4.2 to 4.5) *)

Record ArchitectureRecord : Type := {
  hidden_size : Z;
  num_hidden_layers : Z;
  intermediate_size : Z;
  vocab_size : Z;
  num_attention_heads : Z;
  num_key_value_heads : Z
}.

Module Spec.
Section Formulas.

Local Open Scope Q_scope.

Variable r : ArchitectureRecord.
Variables gated tied : bool.

Let h := inject_Z (hidden_size r).
Let L := inject_Z (num_hidden_layers r).
Let i := inject_Z (intermediate_size r).
Let v := inject_Z (vocab_size r).
Let a := inject_Z (num_attention_heads r).
Let kv := inject_Z (num_key_value_heads r).

Definition embedding : Q := v * h * (if tied then 1 else 2).
Definition attention_params : Q := 2 * h ^ 2 + 2 * h * kv * (h / a).
Definition feedforward_params : Q := (if gated then 3 else 2) * h * i.
Definition layernorm_params : Q := 4 * h.

Definition parameter_count : Q :=
  embedding + L * (attention_params + feedforward_params + layernorm_params).

Definition kvScale : Q := kv / a.
Definition attention_ops (seqLen : Q) : Q :=
  2 * h ^ 2 * (2 + 2 * kvScale) + 4 * h * seqLen.
Definition feedforward_ops : Q :=
  h * i * (if gated then 6 else 4) + i * (if gated then 4 else 1).
Definition lm_head_ops : Q := 2 * h * v.

Definition operation_count (seqLen batchSize : Q) : Q :=
  batchSize * (L * (attention_ops seqLen + feedforward_ops) + lm_head_ops).

Definition kv_cache_elements (seqLen batchSize : Q) : Q :=
  batchSize * seqLen * L * h * 2.

Definition memory_traffic (bytesPerElement seqLen batchSize : Q) : Q :=
  (parameter_count + kv_cache_elements seqLen batchSize) * bytesPerElement.

Definition memoryTimeSeconds (bytesPerElement bandwidth seqLen batchSize : Q) : Q :=
  memory_traffic bytesPerElement seqLen batchSize / (bandwidth * 1000000000).

Definition computeTimeSeconds (throughputTFLOPs seqLen batchSize : Q) : Q :=
  operation_count seqLen batchSize / (throughputTFLOPs * 1000000000000).

Definition throughput (bytesPerElement bandwidth throughputTFLOPs batchSize seqLen : Q) : Q :=
  batchSize /
  (memoryTimeSeconds bytesPerElement bandwidth seqLen batchSize +
   computeTimeSeconds throughputTFLOPs seqLen batchSize).

End Formulas.

(** Bytes per element of a precision tag ([None]: the tag is absent). *)
Definition bytesPerElement (tag : option string) : Q :=
  match tag with
  | Some s =>
      if String.eqb s "float32" then 4
      else if String.eqb s "float16" then 2
      else if String.eqb s "bfloat16" then 2
      else 4
  | None => 4
  end.

(** The parameter count in integers, for a record whose head count divides
    its hidden size. *)
Definition parameter_count_Z (r : ArchitectureRecord) (gated tied : bool) : Z :=
  (let h := hidden_size r in
   let embedding := vocab_size r * h * (if tied then 1 else 2) in
   let attention :=
     2 * h ^ 2 + 2 * h * num_key_value_heads r * (h / num_attention_heads r) in
   let feedforward := (if gated then 3 else 2) * h * intermediate_size r in
   let layernorm := 4 * h in
   embedding + num_hidden_layers r * (attention + feedforward + layernorm))%Z.

(** The sampled sequence lengths for a maximum [ms]: [1], [1 + step],
    [1 + 2 step], ... up to [ms]. *)
Definition step (ms : Q) : Z := Z.max 1 (Qfloor (ms / 800)).

Definition samples (ms : Q) : list Z :=
  map (fun k => (1 + Z.of_nat k * step ms)%Z)
      (seq 0 (Z.to_nat ((Qfloor ms - 1) / step ms + 1))).

End Spec.

(** ** Reading a record out of a parsed configuration *)

Definition int_field (m : value) (k : string) (z : Z) : Prop :=
  get m k = VNumber (number_of_Z z).

(** [m] holds the six dimensions of [r] as numbers. *)
Record describes (m : value) (r : ArchitectureRecord) : Prop := {
  reads_hidden_size : int_field m "hidden_size" (hidden_size r);
  reads_num_hidden_layers : int_field m "num_hidden_layers" (num_hidden_layers r);
  reads_intermediate_size : int_field m "intermediate_size" (intermediate_size r);
  reads_vocab_size : int_field m "vocab_size" (vocab_size r);
  reads_num_attention_heads : int_field m "num_attention_heads" (num_attention_heads r);
  reads_num_key_value_heads : int_field m "num_key_value_heads" (num_key_value_heads r)
}.

(** The dimensions are natural numbers and there is at least one head. *)
Record dimensions_ok (r : ArchitectureRecord) : Prop := {
  hidden_size_nonneg : (0 <= hidden_size r)%Z;
  num_hidden_layers_nonneg : (0 <= num_hidden_layers r)%Z;
  intermediate_size_nonneg : (0 <= intermediate_size r)%Z;
  vocab_size_nonneg : (0 <= vocab_size r)%Z;
  num_attention_heads_pos : (0 < num_attention_heads r)%Z;
  num_key_value_heads_nonneg : (0 <= num_key_value_heads r)%Z
}.

(** The architecture record of section 3: positive dimensions. *)
Record valid (r : ArchitectureRecord) : Prop := {
  hidden_size_pos : (0 < hidden_size r)%Z;
  num_hidden_layers_pos : (0 < num_hidden_layers r)%Z;
  intermediate_size_pos : (0 < intermediate_size r)%Z;
  vocab_size_pos : (0 < vocab_size r)%Z;
  heads_pos : (0 < num_attention_heads r)%Z;
  num_key_value_heads_pos : (0 < num_key_value_heads r)%Z
}.

Definition isGated (m : value) : bool :=
  includes ["silu"; "swiglu"; "geglu"] (get m "hidden_act").

Definition isTied (m : value) : bool :=
  ToBoolean (get m "tie_word_embeddings").

(** The precision tag of [m] is absent or is the string [tag]. *)
Definition precision (m : value) (tag : option string) : Prop :=
  match tag with
  | None => get m "torch_dtype" = VUndefined
  | Some s => get m "torch_dtype" = VString s
  end.

(** A tag that is not the name of a property of [Object.prototype]. *)
Definition own_tag (tag : option string) : Prop :=
  match tag with
  | Some s => assoc s Object_prototype = None
  | None => True
  end.

(** The fields the calculators convert to numbers. *)
Definition numeric_fields : list string :=
  [ "hidden_size"; "num_hidden_layers"; "intermediate_size"; "vocab_size";
    "num_attention_heads"; "num_key_value_heads" ].

(** No conversion of a field of [m] throws: the six dimensions convert to
    numbers and the precision tag to a property key. *)
Definition converts (host : Host) (m : value) : Prop :=
  (forall k, In k numeric_fields ->
             exists n, ToNumber host (get m k) = of_number n) /\
  exists key, ToString host (get m "torch_dtype") = inr key.

(** A record that is valid but for its head count, which is zero. *)
Record zero_heads (r : ArchitectureRecord) : Prop := {
  zh_hidden_size : (0 < hidden_size r)%Z;
  zh_num_hidden_layers : (0 < num_hidden_layers r)%Z;
  zh_intermediate_size : (0 < intermediate_size r)%Z;
  zh_vocab_size : (0 < vocab_size r)%Z;
  zh_num_attention_heads : num_attention_heads r = 0%Z;
  zh_num_key_value_heads : (0 < num_key_value_heads r)%Z
}.

(** A point of the per-user curve against the point of the total curve
    above it, for the batch size [bs]. *)
Definition per_user (bs t p : number) : Prop := p = div t bs.

(** ** Numbers and the rationals they stand for *)

(** [denotes x q]: [x] is the finite number [q], and [q] is not negative. *)
Definition denotes (x : number) (q : Q) : Prop :=
  (0 <= q)%Q /\ exists q', x = Fin q' /\ (q' == q)%Q.

(** A finite number in lowest terms, or a number that is not finite. *)
Definition canonical (x : number) : Prop :=
  match x with
  | Fin q => Qred q = q
  | _ => True
  end.

(** A number the calculator returns, with the rational it stands for. *)
Definition returns (c : completion number) (q : Q) : Prop :=
  exists x, c = inr x /\ denotes x q /\ canonical x.

(** [positive_or_infinite x v]: [x] is the positive finite number [q] when
    [v] is [Some q], and [+Infinity] when [v] is [None]. *)
Definition positive_or_infinite (x : number) (v : option Q) : Prop :=
  match v with
  | Some q => (0 < q)%Q /\ exists q', x = Fin q' /\ (q' == q)%Q
  | None => x = Inf false
  end.

Definition lift2 (f : Q -> Q -> Q) (a b : option Q) : option Q :=
  match a, b with
  | Some x, Some y => Some (f x y)
  | _, _ => None
  end.

(** ** Sample data *)

(** The GPT-2-small-like configuration of the specification. *)
Definition gpt2 : value :=
  VObject [ ("hidden_size", VNumber 768); ("num_hidden_layers", VNumber 12);
            ("intermediate_size", VNumber 3072); ("vocab_size", VNumber 50257);
            ("hidden_act", VString "gelu_new"); ("tie_word_embeddings", VBool true);
            ("num_attention_heads", VNumber 12); ("num_key_value_heads", VNumber 12) ].

(** The same without a head count, with a head count of zero, and with a
    precision tag that names a property of [Object.prototype]. *)
Definition gpt2_no_heads : value :=
  VObject [ ("hidden_size", VNumber 768); ("num_hidden_layers", VNumber 12);
            ("intermediate_size", VNumber 3072); ("vocab_size", VNumber 50257);
            ("hidden_act", VString "gelu_new"); ("tie_word_embeddings", VBool true);
            ("num_key_value_heads", VNumber 12) ].

Definition gpt2_zero_heads : value :=
  VObject [ ("hidden_size", VNumber 768); ("num_hidden_layers", VNumber 12);
            ("intermediate_size", VNumber 3072); ("vocab_size", VNumber 50257);
            ("hidden_act", VString "gelu_new"); ("tie_word_embeddings", VBool true);
            ("num_attention_heads", VNumber 0); ("num_key_value_heads", VNumber 12) ].

Definition gpt2_constructor : value :=
  VObject [ ("hidden_size", VNumber 768); ("num_hidden_layers", VNumber 12);
            ("intermediate_size", VNumber 3072); ("vocab_size", VNumber 50257);
            ("hidden_act", VString "gelu_new"); ("tie_word_embeddings", VBool true);
            ("num_attention_heads", VNumber 12); ("num_key_value_heads", VNumber 12);
            ("torch_dtype", VString "constructor") ].

Definition gpt2_record : ArchitectureRecord :=
  {| hidden_size := 768; num_hidden_layers := 12; intermediate_size := 3072;
     vocab_size := 50257; num_attention_heads := 12; num_key_value_heads := 12 |}.

Definition gpt2_zero_heads_record : ArchitectureRecord :=
  {| hidden_size := 768; num_hidden_layers := 12; intermediate_size := 3072;
     vocab_size := 50257; num_attention_heads := 0; num_key_value_heads := 12 |}.

(** Writes a JSON text with ['] for the double quote. *)
Fixpoint quoted (s : string) : string :=
  match s with
  | EmptyString => EmptyString
  | String c rest =>
      String (if Ascii.eqb c "'" then ascii_of_nat 34 else c) (quoted rest)
  end.

Definition gpt2_text : string :=
  quoted ("{'hidden_size':768,'num_hidden_layers':12,'intermediate_size':3072," ++
          "'vocab_size':50257,'hidden_act':'gelu_new','tie_word_embeddings':true," ++
          "'num_attention_heads':12,'num_key_value_heads':12}")%string.

Definition gpt2_no_heads_text : string :=
  quoted ("{'hidden_size':768,'num_hidden_layers':12,'intermediate_size':3072," ++
          "'vocab_size':50257,'hidden_act':'gelu_new','tie_word_embeddings':true," ++
          "'num_key_value_heads':12}")%string.

Definition gpt2_zero_heads_text : string :=
  quoted ("{'hidden_size':768,'num_hidden_layers':12,'intermediate_size':3072," ++
          "'vocab_size':50257,'hidden_act':'gelu_new','tie_word_embeddings':true," ++
          "'num_attention_heads':0,'num_key_value_heads':12}")%string.

(** What [JSON.parse] makes of the sample texts. *)
Definition sample_texts : list (string * value) :=
  [ (gpt2_text, gpt2); (gpt2_no_heads_text, gpt2_no_heads);
    (gpt2_zero_heads_text, gpt2_zero_heads); ("null", VNull) ].

Definition no_curves : curves :=
  {| total := Trace.make [] []; perUser := Trace.make [] [] |}.

(** The state of [App] once the sample text has been typed and debounced,
    with a batch size of 4 and the initial hardware, and the same with a
    maximum of 3 for a sweep short enough to write down. *)
Definition sample_state : AppState :=
  {| dCfg := gpt2_text; memoryBandwidth := 1792; computePower := 209;
     batchSize := 4; maxSeqLen := 2048; throughputData := no_curves |}.

Definition short_state : AppState :=
  {| dCfg := gpt2_text; memoryBandwidth := 1792; computePower := 209;
     batchSize := 4; maxSeqLen := 3; throughputData := no_curves |}.

(** The natural number a text of decimal digits writes (0 for the empty
    text). *)
Fixpoint digits (s : string) (acc : Z) : option Z :=
  match s with
  | EmptyString => Some acc
  | String c rest =>
      let d := (Z.of_nat (nat_of_ascii c) - 48)%Z in
      if ((0 <=? d) && (d <=? 9))%Z then digits rest (10 * acc + d)%Z else None
  end.

(** A host for the worked examples.  Its [JSON_parse] knows the texts of a
    table and throws on the others; its conversions are right on the
    natural numbers written in decimal, which is more than the examples
    convert. *)
Definition sample_host (table : list (string * value)) : Host :=
  {| JSON_parse := fun text =>
       match assoc text table with
       | Some v => inr v
       | None => inl SyntaxError
       end;
     StringToNumber := fun s =>
       match digits s 0 with
       | Some z => number_of_Z z
       | None => NaN
       end;
     NumberToString := fun n =>
       match n with
       | NaN => "NaN"
       | Inf false => "Infinity"
       | Inf true => "-Infinity"
       | NegZero => "0"
       | Fin q => NilZero.string_of_int (Z.to_int (Qfloor q))
       end;
     FunctionToString := fun f => ("function " ++ f ++ "() { [native code] }")%string |}.

(** The page after the user has typed ["ab"] and the debounce has
    passed. *)
Definition typed_ab : world :=
  advance 1000 (edits [(100, "a"); (200, "ab")]%nat mount).

Definition short_state_after : AppState :=
  Eval vm_compute in
    match curve_effect (sample_host sample_texts) short_state with
    | inr (Some st) => st
    | _ => short_state
    end.

(** ** The hardware controls (App.jsx, lines 39, 44 to 56, 133, 134 and
       183 to 186) *)

(** [Math.min(x, y)]: NaN if one argument is, and [-0] is below [+0]. *)
Definition Math_min (x y : number) : number :=
  match x, y with
  | NaN, _ | _, NaN => NaN
  | _, _ =>
      if le x y then
        if le y x then (if negative x then x else y) else x
      else y
  end.

Definition clamp (v min max : number) : number :=
  Math_min (Math_max v min) max.

(** [a || b] on numbers: [b] when [a] is NaN or a zero. *)
Definition or_else (a b : number) : number :=
  if ToBoolean (VNumber a) then a else b.

Module Range.
Record t : Type := make { min : number; max : number; step : number }.
End Range.

(** The literal [0.1] is the rational 1/10. *)
Module ranges.
Definition mem : Range.t := Range.make (Fin (1 # 10)) 8192 (Fin (1 # 10)).
Definition flops : Range.t := Range.make (Fin (1 # 10)) 8192 (Fin (1 # 10)).
Definition batch : Range.t := Range.make 1 1024 1.
Definition seq : Range.t := Range.make 1024 1048576 1024.
End ranges.

(** The state of [App] at the first render. *)
Definition initial : AppState :=
  {| dCfg := ""; memoryBandwidth := 1792; computePower := 209;
     batchSize := 1; maxSeqLen := 1024; throughputData := no_curves |}.

Definition setMemoryBandwidth (v : number) (st : AppState) : AppState :=
  {| dCfg := dCfg st;
     memoryBandwidth := v;
     computePower := computePower st;
     batchSize := batchSize st;
     maxSeqLen := maxSeqLen st;
     throughputData := throughputData st |}.

Definition setComputePower (v : number) (st : AppState) : AppState :=
  {| dCfg := dCfg st;
     memoryBandwidth := memoryBandwidth st;
     computePower := v;
     batchSize := batchSize st;
     maxSeqLen := maxSeqLen st;
     throughputData := throughputData st |}.

Definition setBatchSize (v : number) (st : AppState) : AppState :=
  {| dCfg := dCfg st;
     memoryBandwidth := memoryBandwidth st;
     computePower := computePower st;
     batchSize := v;
     maxSeqLen := maxSeqLen st;
     throughputData := throughputData st |}.

Definition setMaxSeqLen (v : number) (st : AppState) : AppState :=
  {| dCfg := dCfg st;
     memoryBandwidth := memoryBandwidth st;
     computePower := computePower st;
     batchSize := batchSize st;
     maxSeqLen := v;
     throughputData := throughputData st |}.

Section Handlers.

(** [parseFloat] is the platform's: whatever number, NaN and the
    infinities included, it makes of the text of a field. *)
Context (parseFloat : string -> number).

(** [numChange(set, r)] applied to an event whose [target.value] is
    [value]. *)
Definition numChange (set : number -> AppState -> AppState) (r : Range.t)
    (value : string) (st : AppState) : AppState :=
  set (clamp (or_else (parseFloat value) (Range.min r)) (Range.min r) (Range.max r))
      st.

(** [slideChange(set)] applied to an event and the value [v] of the
    slider. *)
Definition slideChange (set : number -> AppState -> AppState) (v : number)
    (st : AppState) : AppState :=
  set v st.

End Handlers.

(** The four controls of the page, each with the setter and the range its
    [ParamControl] is given, and with the state it shows. *)
Inductive control : Type :=
| MemoryBandwidth
| ComputePower
| BatchSize
| MaxSeqLen.

Definition setter (c : control) : number -> AppState -> AppState :=
  match c with
  | MemoryBandwidth => setMemoryBandwidth
  | ComputePower => setComputePower
  | BatchSize => setBatchSize
  | MaxSeqLen => setMaxSeqLen
  end.

Definition range_of (c : control) : Range.t :=
  match c with
  | MemoryBandwidth => ranges.mem
  | ComputePower => ranges.flops
  | BatchSize => ranges.batch
  | MaxSeqLen => ranges.seq
  end.

Definition value_of (c : control) (st : AppState) : number :=
  match c with
  | MemoryBandwidth => memoryBandwidth st
  | ComputePower => computePower st
  | BatchSize => batchSize st
  | MaxSeqLen => maxSeqLen st
  end.

Definition onNumberChange (parseFloat : string -> number) (c : control)
  : string -> AppState -> AppState :=
  numChange parseFloat (setter c) (range_of c).

Definition onSliderChange (c : control) : number -> AppState -> AppState :=
  slideChange (setter c).

(** [x] lies between the ends of the range [r]. *)
Definition within (r : Range.t) (x : number) : Prop :=
  le (Range.min r) x = true /\ le x (Range.max r) = true.

(** Every control shows a value of its range. *)
Definition in_ranges (st : AppState) : Prop :=
  forall c, within (range_of c) (value_of c st).

(** A [parseFloat] for the worked examples: right on the natural numbers
    written in decimal, NaN on the other texts. *)
Definition sample_parseFloat (s : string) : number :=
  match s with
  | EmptyString => NaN
  | _ => match digits s 0 with
         | Some z => number_of_Z z
         | None => NaN
         end
  end.

(** What the user does to a control: types [value] into its number field,
    or drags its slider to [v]. *)
Inductive event : Type :=
| Typed (c : control) (value : string)
| Slid (c : control) (v : number).

Definition handle (parseFloat : string -> number) (e : event) (st : AppState)
  : AppState :=
  match e with
  | Typed c value => onNumberChange parseFloat c value st
  | Slid c v => onSliderChange c v st
  end.

(** The slider of a control reports a value of the range it is given. *)
Definition slider_in_range (e : event) : Prop :=
  match e with
  | Typed _ _ => True
  | Slid c v => within (range_of c) v
  end.

(** What the debounce keeps: no timer is live and the debounced text is
    the text of the field, or the one live timer is the one the last run
    of the effect has set, it carries the text of the field and is due
    within 200 ms; and the last run of the curve effect was for the
    debounced text. *)
Definition tracking (w : world) : Prop :=
  ((timers w = [] /\ debounced w = config w) \/
   exists tm, timers w = [tm] /\ cleanup w = Some (id tm) /\
              payload tm = config w /\ (due tm <= now w + 200)%nat) /\
  final "" (effect_runs w) = debounced w.

(** Edits after an edit at time [t], each 200 ms or more after the one
    before it. *)
Fixpoint spaced (t : nat) (es : list (nat * string)) : Prop :=
  match es with
  | [] => True
  | (t', _) :: rest => (t + 200 <= t')%nat /\ spaced t' rest
  end.

(** A curve that is positive and does not rise: each y is a positive
    finite number, and none is above a y to its left. *)
Definition positive_nonincreasing (ys : list number) : Prop :=
  forall i j t1 t2,
    (i <= j)%nat -> nth_error ys i = Some t1 -> nth_error ys j = Some t2 ->
    exists q1 q2, t1 = Fin q1 /\ t2 = Fin q2 /\ (0 < q2)%Q /\ (q2 <= q1)%Q.

(** The page while the user is still typing the text, and the page with
    the sample text, one user and a maximum of 3. *)
Definition unfinished_state : AppState :=
  {| dCfg := "{"; memoryBandwidth := 1792; computePower := 209;
     batchSize := 1; maxSeqLen := 1024; throughputData := no_curves |}.

Definition single_user_state : AppState :=
  {| dCfg := gpt2_text; memoryBandwidth := 1792; computePower := 209;
     batchSize := 1; maxSeqLen := 3; throughputData := no_curves |}.

Definition single_user_state_after : AppState :=
  Eval vm_compute in
    match curve_effect (sample_host sample_texts) single_user_state with
    | inr (Some st) => st
    | _ => single_user_state
    end.

(** A host that parses the text of the empty object. *)
Definition empty_object_host : Host := sample_host [("{}", VObject [])].

(** * Properties *)

(** ** Arithmetic of the finite numbers *)

#[local] Arguments Qred : simpl never.
#[local] Arguments Qplus : simpl never.
#[local] Arguments Qmult : simpl never.
#[local] Arguments Qdiv : simpl never.
#[local] Arguments Qeq_bool : simpl never.
#[local] Arguments Qle_bool : simpl never.

Example division_by_zero :
  div 1 0 = Inf false /\ div 1 NegZero = Inf true /\ div 0 0 = NaN.
Proof. repeat split. Qed.

Example arithmetic_of_infinity :
  mul 0 (Inf false) = NaN /\ add (Inf false) (Inf true) = NaN /\
  add 1 (Inf false) = Inf false /\ div 1 (Inf false) = 0%js.
Proof. repeat split. Qed.

Example signs_of_zero :
  mul NegZero 2 = NegZero /\ add NegZero 0 = 0%js /\
  exponentiate NegZero 2 = 0%js /\ le NegZero 0 = true.
Proof. repeat split. Qed.

Section Arithmetic.

Local Open Scope Q_scope.

Lemma Qeq_bool_nonzero q : ~ q == 0 -> Qeq_bool q 0 = false.
Proof.
  intros H. destruct (Qeq_bool q 0) eqn:E; [|reflexivity].
  apply Qeq_bool_eq in E. contradiction.
Qed.

Lemma negative_Fin q : 0 <= q -> negative (Fin q) = false.
Proof.
  intros H. simpl. apply Z.ltb_ge. unfold Qle in H. simpl in H. lia.
Qed.

Lemma mul_Fin a b :
  0 <= a -> 0 <= b -> mul (Fin a) (Fin b) = Fin (Qred (a * b)).
Proof.
  intros Ha Hb. unfold mul.
  rewrite (negative_Fin a Ha), (negative_Fin b Hb). reflexivity.
Qed.

Lemma add_Fin a b : add (Fin a) (Fin b) = Fin (Qred (a + b)).
Proof. reflexivity. Qed.

Lemma div_Fin a b :
  0 <= a -> 0 < b -> div (Fin a) (Fin b) = Fin (Qred (a / b)).
Proof.
  intros Ha Hb. unfold div.
  assert (Hz : is_zero (Fin b) = false).
  { simpl. apply Qeq_bool_nonzero. lra. }
  rewrite Hz, (negative_Fin a Ha), (negative_Fin b (Qlt_le_weak _ _ Hb)).
  reflexivity.
Qed.

Lemma denotes_eq x q q' : denotes x q -> q == q' -> denotes x q'.
Proof.
  intros [Hq [p [Hx Hp]]] E. split; [lra|].
  exists p. split; [assumption | lra].
Qed.

Lemma denotes_Z z : (0 <= z)%Z -> denotes (number_of_Z z) (inject_Z z).
Proof.
  intros Hz. split.
  - change 0 with (inject_Z 0). rewrite <- Zle_Qle. assumption.
  - exists (inject_Z z). split; reflexivity.
Qed.

Lemma denotes_Fin q : 0 <= q -> denotes (Fin q) q.
Proof. intros Hq. split; [assumption|]. exists q. split; reflexivity. Qed.

Lemma Qdiv_nonneg a b : 0 <= a -> 0 < b -> 0 <= a / b.
Proof.
  intros Ha Hb. apply Qle_shift_div_l; [assumption | lra].
Qed.

Lemma Qdiv_pos a b : 0 < a -> 0 < b -> 0 < a / b.
Proof.
  intros Ha Hb. apply Qlt_shift_div_l; [assumption | lra].
Qed.

Lemma denotes_mul x y a b :
  denotes x a -> denotes y b -> denotes (mul x y) (a * b).
Proof.
  intros [Ha [a' [-> Ea]]] [Hb [b' [-> Eb]]]. split.
  - apply Qmult_le_0_compat; assumption.
  - exists (Qred (a' * b')). split.
    + apply mul_Fin; lra.
    + rewrite Qred_correct, Ea, Eb. reflexivity.
Qed.

Lemma denotes_add x y a b :
  denotes x a -> denotes y b -> denotes (add x y) (a + b).
Proof.
  intros [Ha [a' [-> Ea]]] [Hb [b' [-> Eb]]]. split.
  - lra.
  - exists (Qred (a' + b')). split.
    + apply add_Fin.
    + rewrite Qred_correct, Ea, Eb. reflexivity.
Qed.

Lemma denotes_div x y a b :
  denotes x a -> denotes y b -> 0 < b -> denotes (div x y) (a / b).
Proof.
  intros [Ha [a' [-> Ea]]] [Hb [b' [-> Eb]]] Hpos. split.
  - apply Qdiv_nonneg; assumption.
  - exists (Qred (a' / b')). split.
    + apply div_Fin; lra.
    + rewrite Qred_correct, Ea, Eb. reflexivity.
Qed.

Lemma denotes_square x a : denotes x a -> denotes (exponentiate x 2) (a ^ 2).
Proof.
  intros Hx.
  change (exponentiate x 2) with (mul x (mul x 1%js)).
  apply denotes_eq with (a * (a * 1)).
  - apply denotes_mul; [assumption|].
    apply denotes_mul; [assumption|]. apply (denotes_Z 1). lia.
  - simpl. ring.
Qed.

Lemma denotes_if (c : bool) x y a b :
  denotes x a -> denotes y b ->
  denotes (if c then x else y) (if c then a else b).
Proof. destruct c; trivial. Qed.

Lemma Qred_idem q : Qred (Qred q) = Qred q.
Proof. apply Qred_complete, Qred_correct. Qed.

Lemma canonical_fin s q : canonical (fin s q).
Proof.
  unfold fin. destruct (s && Qeq_bool q 0); simpl; [trivial|].
  apply Qred_idem.
Qed.

Lemma canonical_add x y : canonical (add x y).
Proof.
  destruct x as [|s| |a], y as [|t| |b]; simpl; trivial;
    try apply Qred_idem.
  destruct (Bool.eqb s t); simpl; trivial.
Qed.

Lemma canonical_mul x y : canonical (mul x y).
Proof.
  destruct x as [|s| |a], y as [|t| |b]; unfold mul; simpl negative;
    simpl magnitude; simpl is_zero; try apply canonical_fin; simpl; trivial.
  - destruct (Qeq_bool b 0); simpl; trivial.
  - destruct (Qeq_bool a 0); simpl; trivial.
Qed.

Lemma canonical_div x y : canonical (div x y).
Proof.
  destruct x as [|s| |a], y as [|t| |b]; unfold div; simpl negative;
    simpl magnitude; simpl is_zero; try apply canonical_fin; simpl; trivial.
  - destruct (Qeq_bool b 0); [simpl; trivial | apply canonical_fin].
  - destruct (Qeq_bool a 0); simpl; trivial.
  - destruct (Qeq_bool b 0); [destruct (Qeq_bool a 0); simpl; trivial|].
    apply canonical_fin.
Qed.

Lemma denotes_canonical x q : denotes x q -> canonical x -> x = Fin (Qred q).
Proof.
  intros [_ [q' [-> E]]] C. simpl in C. f_equal.
  rewrite <- C. apply Qred_complete. assumption.
Qed.

Lemma positive_Fin q : 0 < q -> positive_or_infinite (Fin q) (Some q).
Proof. intros H. split; [assumption|]. exists q. split; reflexivity. Qed.

Lemma positive_Inf : positive_or_infinite (Inf false) None.
Proof. reflexivity. Qed.

Lemma positive_not_zero q : 0 < q -> is_zero (Fin q) = false.
Proof. intros H. simpl. apply Qeq_bool_nonzero. lra. Qed.

Lemma positive_mul x y a b :
  positive_or_infinite x a -> positive_or_infinite y b ->
  positive_or_infinite (mul x y) (lift2 Qmult a b).
Proof.
  destruct a as [a|], b as [b|]; simpl.
  - intros [Ha [a' [-> Ea]]] [Hb [b' [-> Eb]]]. split.
    + apply Qmult_lt_0_compat; assumption.
    + exists (Qred (a' * b')). split.
      * apply mul_Fin; lra.
      * rewrite Qred_correct, Ea, Eb. reflexivity.
  - intros [Ha [a' [-> Ea]]] ->. unfold mul.
    rewrite positive_not_zero, negative_Fin by lra. reflexivity.
  - intros -> [Hb [b' [-> Eb]]]. unfold mul.
    rewrite positive_not_zero, negative_Fin by lra. reflexivity.
  - intros -> ->. reflexivity.
Qed.

Lemma positive_add x y a b :
  positive_or_infinite x a -> positive_or_infinite y b ->
  positive_or_infinite (add x y) (lift2 Qplus a b).
Proof.
  destruct a as [a|], b as [b|]; simpl.
  - intros [Ha [a' [-> Ea]]] [Hb [b' [-> Eb]]]. split.
    + lra.
    + exists (Qred (a' + b')). split.
      * apply add_Fin.
      * rewrite Qred_correct, Ea, Eb. reflexivity.
  - intros [Ha [a' [-> Ea]]] ->. reflexivity.
  - intros -> [Hb [b' [-> Eb]]]. reflexivity.
  - intros -> ->. reflexivity.
Qed.

(** A positive divisor. *)
Lemma positive_div x y a bv b :
  positive_or_infinite x a -> positive_or_infinite y bv -> bv = Some b ->
  positive_or_infinite (div x y) (lift2 Qdiv a (Some b)).
Proof.
  intros Hx Hy ->. revert Hx Hy. destruct a as [a|]; simpl.
  - intros [Ha [a' [-> Ea]]] [Hb [b' [-> Eb]]]. split.
    + apply Qdiv_pos; assumption.
    + exists (Qred (a' / b')). split.
      * apply div_Fin; lra.
      * rewrite Qred_correct, Ea, Eb. reflexivity.
  - intros -> [Hb [b' [-> Eb]]]. unfold div.
    rewrite negative_Fin by lra. reflexivity.
Qed.

(** The divisor [+0]. *)
Lemma positive_div_zero x a :
  positive_or_infinite x (Some a) -> positive_or_infinite (div x (Fin 0)) None.
Proof.
  intros [Ha [a' [-> Ea]]]. simpl. unfold div.
  change (Qeq_bool a' 0) with (is_zero (Fin a')).
  change (Qnum a' <? 0)%Z with (negative (Fin a')).
  rewrite positive_not_zero, negative_Fin by lra. reflexivity.
Qed.

(** The divisor [+Infinity]. *)
Lemma positive_div_infinite x a :
  positive_or_infinite x (Some a) -> div x (Inf false) = Fin 0.
Proof.
  intros [Ha [a' [-> Ea]]]. unfold div.
  rewrite negative_Fin by lra. reflexivity.
Qed.

Lemma positive_square x a :
  positive_or_infinite x a ->
  positive_or_infinite (exponentiate x 2) (lift2 Qmult a (lift2 Qmult a (Some 1))).
Proof.
  intros Hx.
  change (exponentiate x 2) with (mul x (mul x 1%js)).
  apply positive_mul; [assumption|].
  apply positive_mul; [assumption|]. apply positive_Fin. reflexivity.
Qed.

Lemma positive_if (c : bool) x y a b :
  positive_or_infinite x a -> positive_or_infinite y b ->
  positive_or_infinite (if c then x else y) (if c then a else b).
Proof. destruct c; trivial. Qed.

(** NaN goes through every operation. *)
Lemma mul_NaN_r x : mul x NaN = NaN.
Proof. destruct x; reflexivity. Qed.

Lemma add_NaN_l x : add NaN x = NaN.
Proof. reflexivity. Qed.

Lemma add_NaN_r x : add x NaN = NaN.
Proof. destruct x; reflexivity. Qed.

Lemma mul_NaN_l x : mul NaN x = NaN.
Proof. reflexivity. Qed.

Lemma div_NaN_l x : div NaN x = NaN.
Proof. reflexivity. Qed.

Lemma div_NaN_r x : div x NaN = NaN.
Proof. destruct x; reflexivity. Qed.

End Arithmetic.

(** Follows an arithmetic expression of the program down to its finite
    leaves; what is left are the conditions that a divisor is positive. *)
Ltac denote :=
  repeat match goal with
    | |- denotes (add _ _) _ => eapply denotes_add
    | |- denotes (mul _ _) _ => eapply denotes_mul
    | |- denotes (div _ _) _ => eapply denotes_div
    | |- denotes (exponentiate _ 2) _ => eapply denotes_square
    | |- denotes (if _ then _ else _) _ => eapply denotes_if
    | |- denotes (Fin _) _ => eapply denotes_Fin; lra
    end.

(** The same for an expression of positive and infinite operands. *)
Ltac follow_positive :=
  repeat match goal with
    | |- positive_or_infinite (add _ _) _ => eapply positive_add
    | |- positive_or_infinite (mul _ _) _ => eapply positive_mul
    | |- positive_or_infinite (div _ (Fin 0)) _ => eapply positive_div_zero
    | |- positive_or_infinite (div _ _) _ => eapply positive_div
    | |- positive_or_infinite (exponentiate _ 2) _ => eapply positive_square
    | |- positive_or_infinite (if _ then _ else _) _ => eapply positive_if
    | |- positive_or_infinite (Fin _) _ => eapply positive_Fin; lra
    | |- positive_or_infinite (Inf false) _ => apply positive_Inf
    | |- _ = Some _ => reflexivity
    end.

(** ** The formulas on a valid record *)

Section Positivity.

Local Open Scope Q_scope.

Lemma Qplus_pos a b : 0 < a -> 0 < b -> 0 < a + b.
Proof. intros. lra. Qed.

Lemma Qsquare_pos a : 0 < a -> 0 < a ^ 2.
Proof. intros H. simpl. apply Qmult_lt_0_compat; assumption. Qed.

Lemma valid_Q r :
  valid r ->
  0 < inject_Z (hidden_size r) /\ 0 < inject_Z (num_hidden_layers r) /\
  0 < inject_Z (intermediate_size r) /\ 0 < inject_Z (vocab_size r) /\
  0 < inject_Z (num_attention_heads r) /\
  0 < inject_Z (num_key_value_heads r).
Proof.
  intros [H1 H2 H3 H4 H5 H6].
  change 0 with (inject_Z 0).
  rewrite <- !Zlt_Qlt. tauto.
Qed.

Lemma valid_dimensions_ok r : valid r -> dimensions_ok r.
Proof. intros [H1 H2 H3 H4 H5 H6]. split; lia. Qed.

(** Splits the positivity of a sum, product, quotient or square of
    positive terms into that of its terms. *)
Ltac positive :=
  repeat first
    [ assumption
    | apply Qplus_pos
    | apply Qdiv_pos
    | apply Qmult_lt_0_compat
    | apply Qsquare_pos
    | match goal with |- 0 < (if ?c then _ else _) => destruct c end
    | reflexivity ].

Variable r : ArchitectureRecord.
Variables gated tied : bool.
Hypothesis Hvalid : valid r.

Lemma parameter_count_pos : 0 < Spec.parameter_count r gated tied.
Proof.
  destruct (valid_Q r Hvalid) as (Hh & HL & Hi & Hv & Ha & Hk).
  unfold Spec.parameter_count, Spec.embedding, Spec.attention_params,
    Spec.feedforward_params, Spec.layernorm_params.
  positive.
Qed.

Lemma operation_count_pos s b :
  0 < s -> 0 < b -> 0 < Spec.operation_count r gated s b.
Proof.
  intros Hs Hb.
  destruct (valid_Q r Hvalid) as (Hh & HL & Hi & Hv & Ha & Hk).
  unfold Spec.operation_count, Spec.attention_ops, Spec.feedforward_ops,
    Spec.lm_head_ops, Spec.kvScale.
  positive.
Qed.

Lemma memory_traffic_pos bytes s b :
  0 < bytes -> 0 < s -> 0 < b ->
  0 < Spec.memory_traffic r gated tied bytes s b.
Proof.
  intros Hbytes Hs Hb. pose proof parameter_count_pos as HP.
  destruct (valid_Q r Hvalid) as (Hh & HL & Hi & Hv & Ha & Hk).
  unfold Spec.memory_traffic, Spec.kv_cache_elements.
  positive.
Qed.

Lemma memoryTimeSeconds_pos bytes bw s b :
  0 < bytes -> 0 < bw -> 0 < s -> 0 < b ->
  0 < Spec.memoryTimeSeconds r gated tied bytes bw s b.
Proof.
  intros. unfold Spec.memoryTimeSeconds.
  apply Qdiv_pos; [apply memory_traffic_pos; assumption | lra].
Qed.

Lemma computeTimeSeconds_pos tf s b :
  0 < tf -> 0 < s -> 0 < b ->
  0 < Spec.computeTimeSeconds r gated tf s b.
Proof.
  intros. unfold Spec.computeTimeSeconds.
  apply Qdiv_pos; [apply operation_count_pos; assumption | lra].
Qed.

Lemma throughput_pos bytes bw tf b s :
  0 < bytes -> 0 < bw -> 0 < tf -> 0 < b -> 0 < s ->
  0 < Spec.throughput r gated tied bytes bw tf b s.
Proof.
  intros. unfold Spec.throughput.
  apply Qdiv_pos; [assumption|].
  apply Qplus_pos;
    [apply memoryTimeSeconds_pos | apply computeTimeSeconds_pos]; assumption.
Qed.

(** More sequence, more traffic and more operations. *)
Lemma memory_traffic_mono bytes s1 s2 b :
  0 < bytes -> 0 < b -> s1 <= s2 ->
  Spec.memory_traffic r gated tied bytes s1 b <=
  Spec.memory_traffic r gated tied bytes s2 b.
Proof.
  intros Hbytes Hb Hs.
  destruct (valid_Q r Hvalid) as (Hh & HL & Hi & Hv & Ha & Hk).
  assert (K : 0 <= (s2 - s1) *
                   (b * inject_Z (num_hidden_layers r) *
                    inject_Z (hidden_size r) * 2 * bytes)).
  { apply Qmult_le_0_compat; [lra|]. apply Qlt_le_weak. positive. }
  unfold Spec.memory_traffic, Spec.kv_cache_elements.
  set (P := Spec.parameter_count r gated tied) in *.
  lra.
Qed.

Lemma operation_count_mono s1 s2 b :
  0 < b -> s1 <= s2 ->
  Spec.operation_count r gated s1 b <= Spec.operation_count r gated s2 b.
Proof.
  intros Hb Hs.
  destruct (valid_Q r Hvalid) as (Hh & HL & Hi & Hv & Ha & Hk).
  assert (K : 0 <= (s2 - s1) *
                   (b * inject_Z (num_hidden_layers r) *
                    (4 * inject_Z (hidden_size r)))).
  { apply Qmult_le_0_compat; [lra|]. apply Qlt_le_weak. positive. }
  unfold Spec.operation_count, Spec.attention_ops.
  set (F := Spec.feedforward_ops r gated) in *.
  set (H := Spec.lm_head_ops r) in *.
  set (A := 2 * inject_Z (hidden_size r) ^ 2 * (2 + 2 * Spec.kvScale r)) in *.
  lra.
Qed.

Lemma Qdiv_antitone b d1 d2 : 0 <= b -> 0 < d1 -> d1 <= d2 -> b / d2 <= b / d1.
Proof.
  intros Hb H1 H2.
  apply Qle_shift_div_l; [assumption|].
  assert (E : b / d2 * d1 == b * (d1 / d2)) by (field; lra).
  rewrite E.
  assert (Hq : d1 / d2 <= 1).
  { apply Qle_shift_div_r; lra. }
  assert (K : 0 <= b * (1 - d1 / d2)).
  { apply Qmult_le_0_compat; lra. }
  lra.
Qed.

Lemma Qdiv_mono a1 a2 d : 0 < d -> a1 <= a2 -> a1 / d <= a2 / d.
Proof.
  intros Hd Ha. unfold Qdiv.
  apply Qmult_le_compat_r; [assumption|].
  apply Qlt_le_weak, Qinv_lt_0_compat. assumption.
Qed.

Lemma throughput_antitone bytes bw tf b s1 s2 :
  0 < bytes -> 0 < bw -> 0 < tf -> 0 < b -> 0 < s1 -> s1 <= s2 ->
  Spec.throughput r gated tied bytes bw tf b s2 <=
  Spec.throughput r gated tied bytes bw tf b s1.
Proof.
  intros Hbytes Hbw Htf Hb Hs1 Hs.
  unfold Spec.throughput.
  apply Qdiv_antitone; [lra| |].
  - apply Qplus_pos;
      [apply memoryTimeSeconds_pos | apply computeTimeSeconds_pos]; assumption.
  - apply Qplus_le_compat.
    + unfold Spec.memoryTimeSeconds. apply Qdiv_mono; [lra|].
      apply memory_traffic_mono; assumption.
    + unfold Spec.computeTimeSeconds. apply Qdiv_mono; [lra|].
      apply operation_count_mono; assumption.
Qed.

(** The sum of the two times is above each of them: the additive
    throughput is below what either bound alone would give. *)
Lemma throughput_below_bounds bytes bw tf b s :
  0 < bytes -> 0 < bw -> 0 < tf -> 0 < b -> 0 < s ->
  Spec.throughput r gated tied bytes bw tf b s <
    b / Spec.memoryTimeSeconds r gated tied bytes bw s b /\
  Spec.throughput r gated tied bytes bw tf b s <
    b / Spec.computeTimeSeconds r gated tf s b.
Proof.
  intros Hbytes Hbw Htf Hb Hs.
  pose proof (memoryTimeSeconds_pos bytes bw s b Hbytes Hbw Hs Hb) as HM.
  pose proof (computeTimeSeconds_pos tf s b Htf Hs Hb) as HC.
  unfold Spec.throughput.
  set (M := Spec.memoryTimeSeconds r gated tied bytes bw s b) in *.
  set (C := Spec.computeTimeSeconds r gated tf s b) in *.
  assert (HMC : 0 < M * C) by (apply Qmult_lt_0_compat; assumption).
  assert (HbC : 0 < b * C) by (apply Qmult_lt_0_compat; assumption).
  assert (HbM : 0 < b * M) by (apply Qmult_lt_0_compat; assumption).
  split.
  - apply Qlt_shift_div_r; [lra|].
    assert (E : b / M * (M + C) == b + b * C / M) by (field; lra).
    rewrite E.
    assert (0 < b * C / M) by (apply Qdiv_pos; assumption).
    lra.
  - apply Qlt_shift_div_r; [lra|].
    assert (E : b / C * (M + C) == b + b * M / C) by (field; lra).
    rewrite E.
    assert (0 < b * M / C) by (apply Qdiv_pos; assumption).
    lra.
Qed.

End Positivity.

(** ** The calculators and the formulas *)

Lemma bind_inr {A B : Type} (a : A) (f : A -> completion B) :
  bind (inr a : completion A) f = f a.
Proof. reflexivity. Qed.

Lemma bind_inl {A B : Type} (e : exn) (f : A -> completion B) :
  bind (inl e : completion A) f = inl e.
Proof. reflexivity. Qed.

Lemma bind_number {B : Type} (a : number) (f : number -> completion B) :
  bind (of_number a) f = f a.
Proof. reflexivity. Qed.

Lemma binary_number op a b :
  binary op (of_number a) (of_number b) = of_number (op a b).
Proof. reflexivity. Qed.

Lemma power_number a n : power (of_number a) n = of_number (exponentiate a n).
Proof. reflexivity. Qed.

Lemma catch_number (a : number) (h : exn -> completion number) :
  catch (of_number a) h = inr a.
Proof. reflexivity. Qed.

Lemma if_number (c : bool) (a b : number) :
  (if c then of_number a else of_number b) = of_number (if c then a else b).
Proof. destruct c; reflexivity. Qed.

(** Runs an expression whose operands are numbers. *)
Ltac evaluate :=
  repeat (rewrite binary_number || rewrite power_number || rewrite bind_number
          || rewrite if_number);
  cbv beta.

Lemma describes_coercible m r :
  describes m r -> RequireObjectCoercible m = inr tt.
Proof.
  intros [H _ _ _ _ _]. destruct m; try reflexivity; discriminate H.
Qed.

(** The six dimensions as rationals, none negative, the head count
    positive. *)
Lemma dimensions_ok_Q r :
  dimensions_ok r ->
  (0 <= inject_Z (hidden_size r) /\ 0 <= inject_Z (num_hidden_layers r) /\
   0 <= inject_Z (intermediate_size r) /\ 0 <= inject_Z (vocab_size r) /\
   0 < inject_Z (num_attention_heads r) /\
   0 <= inject_Z (num_key_value_heads r))%Q.
Proof.
  intros [H1 H2 H3 H4 H5 H6].
  change 0%Q with (inject_Z 0).
  rewrite <- !Zle_Qle, <- Zlt_Qlt. tauto.
Qed.

Ltac read_fields H :=
  rewrite ?(reads_hidden_size _ _ H), ?(reads_num_hidden_layers _ _ H),
    ?(reads_intermediate_size _ _ H), ?(reads_vocab_size _ _ H),
    ?(reads_num_attention_heads _ _ H), ?(reads_num_key_value_heads _ _ H).

Section Calculators.

Context (host : Host).

Lemma returns_eq c q : returns c q -> c = inr (Fin (Qred q)).
Proof.
  intros [x [-> [D C]]]. f_equal. apply denotes_canonical; assumption.
Qed.

Lemma calculateModelParameters_returns m r :
  describes m r -> dimensions_ok r ->
  returns (calculateModelParameters host m)
          (Spec.parameter_count r (isGated m) (isTied m)).
Proof.
  intros D Hr. apply dimensions_ok_Q in Hr.
  destruct Hr as (Hh & HL & Hi & Hv & Ha & Hk).
  unfold calculateModelParameters.
  rewrite (describes_coercible m r D), bind_inr. cbv zeta.
  read_fields D.
  change (includes _ (get m "hidden_act")) with (isGated m).
  change (ToBoolean (get m "tie_word_embeddings")) with (isTied m).
  cbn [ToNumber]. unfold number_of_Z. evaluate.
  eexists. split; [reflexivity|]. split; [|apply canonical_add].
  eapply denotes_eq.
  - denote. lra.
  - unfold Spec.parameter_count, Spec.embedding, Spec.attention_params,
      Spec.feedforward_params, Spec.layernorm_params.
    destruct (isGated m), (isTied m); field; lra.
Qed.

(** The count returns on every configuration whose dimensions are
    numbers. *)
Lemma calculateModelParameters_described m r :
  describes m r -> exists p, calculateModelParameters host m = inr p.
Proof.
  intros D. unfold calculateModelParameters.
  rewrite (describes_coercible m r D), bind_inr. cbv zeta.
  read_fields D. cbn [ToNumber]. evaluate. eexists. reflexivity.
Qed.

Lemma calculateOperations_returns m r s b :
  describes m r -> dimensions_ok r -> (0 <= s)%Q -> (0 <= b)%Q ->
  returns (calculateOperations host m (Fin s) (Fin b))
          (Spec.operation_count r (isGated m) s b).
Proof.
  intros D Hr Hs Hb. apply dimensions_ok_Q in Hr.
  destruct Hr as (Hh & HL & Hi & Hv & Ha & Hk).
  unfold calculateOperations.
  rewrite (describes_coercible m r D), bind_inr. cbv zeta.
  read_fields D.
  change (includes _ (get m "hidden_act")) with (isGated m).
  cbn [ToNumber]. unfold number_of_Z.
  destruct (isGated m); evaluate;
    (eexists; split; [reflexivity|]; split; [|apply canonical_mul];
     eapply denotes_eq;
     [ denote; lra
     | unfold Spec.operation_count, Spec.attention_ops, Spec.feedforward_ops,
         Spec.lm_head_ops, Spec.kvScale; field; lra ]).
Qed.

(** The table answers an own tag with its width, [undefined] with 4. *)
Lemma bytes_of_tag m tag :
  precision m tag -> own_tag tag ->
  exists key,
    ToString host (get m "torch_dtype") = inr key /\
    ToNumber host (nullish (get bytes_table key) (VNumber 4))
    = of_number (Fin (Spec.bytesPerElement tag)).
Proof.
  destruct tag as [s|]; simpl; intros -> Hown.
  - exists s. split; [reflexivity|].
    unfold get, bytes_table. cbn [assoc].
    destruct (String.eqb s "float32"); [reflexivity|].
    destruct (String.eqb s "float16"); [reflexivity|].
    destruct (String.eqb s "bfloat16"); [reflexivity|].
    rewrite Hown. reflexivity.
  - exists "undefined". split; reflexivity.
Qed.

Lemma bytesPerElement_pos tag : (0 < Spec.bytesPerElement tag)%Q.
Proof.
  destruct tag as [s|]; simpl; [|reflexivity].
  destruct (String.eqb s "float32"); [reflexivity|].
  destruct (String.eqb s "float16"); [reflexivity|].
  destruct (String.eqb s "bfloat16"); reflexivity.
Qed.

Lemma calculateMemoryReads_returns m r tag s b :
  describes m r -> dimensions_ok r -> precision m tag -> own_tag tag ->
  (0 <= s)%Q -> (0 <= b)%Q ->
  returns (calculateMemoryReads host m (Fin s) (Fin b))
          (Spec.memory_traffic r (isGated m) (isTied m)
             (Spec.bytesPerElement tag) s b).
Proof.
  intros D Hr Htag Hown Hs Hb.
  destruct (calculateModelParameters_returns m r D Hr) as [p [Ep [Dp _]]].
  destruct (bytes_of_tag m tag Htag Hown) as [key [Ekey Ebytes]].
  apply dimensions_ok_Q in Hr.
  destruct Hr as (Hh & HL & Hi & Hv & Ha & Hk).
  pose proof (bytesPerElement_pos tag) as Hbytes.
  unfold calculateMemoryReads.
  rewrite (describes_coercible m r D), bind_inr, Ekey, bind_inr. cbv zeta.
  rewrite Ebytes, Ep.
  read_fields D. cbn [ToNumber]. unfold number_of_Z. evaluate. rewrite ?bind_inr. evaluate.
  eexists. split; [reflexivity|]. split; [|apply canonical_mul].
  eapply denotes_eq.
  - denote. eassumption.
  - unfold Spec.memory_traffic, Spec.kv_cache_elements. ring.
Qed.

Lemma calculateThroughput_returns cfg m r tag bw tf b s :
  JSON_parse host cfg = inr m ->
  describes m r -> valid r -> precision m tag -> own_tag tag ->
  (0 < bw)%Q -> (0 < tf)%Q -> (0 < b)%Q -> (0 < s)%Q ->
  returns (calculateThroughput host cfg (Fin bw) (Fin tf) (Fin b) (Fin s))
          (Spec.throughput r (isGated m) (isTied m)
             (Spec.bytesPerElement tag) bw tf b s).
Proof.
  intros Hparse D Hr Htag Hown Hbw Htf Hb Hs.
  pose proof (valid_dimensions_ok r Hr) as Hd.
  destruct (calculateMemoryReads_returns m r tag s b D Hd Htag Hown)
    as [reads [Ereads [Dreads _]]]; [lra | lra |].
  destruct (calculateOperations_returns m r s b D Hd)
    as [ops [Eops [Dops _]]]; [lra | lra |].
  pose proof (memoryTimeSeconds_pos r (isGated m) (isTied m) Hr
                (Spec.bytesPerElement tag) bw s b
                (bytesPerElement_pos tag) Hbw Hs Hb) as HM.
  pose proof (computeTimeSeconds_pos r (isGated m) Hr tf s b Htf Hs Hb) as HC.
  unfold calculateThroughput.
  rewrite Hparse, bind_inr, Ereads, bind_inr.
  evaluate.
  rewrite Eops, bind_inr.
  evaluate.
  rewrite catch_number.
  eexists. split; [reflexivity|]. split; [|apply canonical_div].
  eapply denotes_eq.
  - denote; try eassumption; try lra.
    unfold Spec.memoryTimeSeconds, Spec.computeTimeSeconds in HM, HC.
    apply Qplus_pos; eassumption.
  - reflexivity.
Qed.

(** Whatever the try block does, the function returns a number. *)
Lemma calculateThroughput_total cfg mem flops b seq :
  exists t, calculateThroughput host cfg mem flops b seq = inr t.
Proof.
  unfold calculateThroughput.
  match goal with |- exists t, catch ?c _ = _ => destruct c as [e|t] end.
  - exists 0%js. reflexivity.
  - exists t. reflexivity.
Qed.

Lemma calculateThroughput_parse_error cfg e mem flops b seq :
  JSON_parse host cfg = inl e ->
  calculateThroughput host cfg mem flops b seq = inr 0%js.
Proof.
  intros E. unfold calculateThroughput. rewrite E, bind_inl. reflexivity.
Qed.

Lemma calculateThroughput_null cfg mem flops b seq :
  JSON_parse host cfg = inr VNull ->
  calculateThroughput host cfg mem flops b seq = inr 0%js.
Proof.
  intros E. unfold calculateThroughput. rewrite E, bind_inr. reflexivity.
Qed.

(** Without a head count the division by it is NaN, and so is all that
    follows, provided the conversions of the other fields return. *)
Lemma converts_number m k :
  converts host m -> In k numeric_fields ->
  exists n, ToNumber host (get m k) = of_number n.
Proof. intros [H _] Hk. apply H. assumption. Qed.

Ltac convert_field C k :=
  let n := fresh "n" in
  let E := fresh "E" in
  destruct (converts_number _ k C ltac:(simpl; tauto)) as [n E];
  rewrite ?E.

Ltac convert_fields C :=
  convert_field C constr:("hidden_size");
  convert_field C constr:("num_hidden_layers");
  convert_field C constr:("intermediate_size");
  convert_field C constr:("vocab_size");
  convert_field C constr:("num_key_value_heads").

Lemma calculateModelParameters_no_heads m :
  RequireObjectCoercible m = inr tt -> converts host m ->
  get m "num_attention_heads" = VUndefined ->
  calculateModelParameters host m = inr NaN.
Proof.
  intros Hm C Hheads. unfold calculateModelParameters.
  rewrite Hm, bind_inr. cbv zeta. rewrite Hheads. cbn [ToNumber].
  convert_fields C. evaluate.
  rewrite div_NaN_r, mul_NaN_r, add_NaN_r, !add_NaN_l, mul_NaN_r, add_NaN_r.
  reflexivity.
Qed.

Lemma calculateMemoryReads_no_heads m seq b :
  RequireObjectCoercible m = inr tt -> converts host m ->
  get m "num_attention_heads" = VUndefined ->
  calculateMemoryReads host m seq b = inr NaN.
Proof.
  intros Hm C Hheads. unfold calculateMemoryReads.
  rewrite Hm, bind_inr.
  destruct C as [Cn [key Ekey]]. rewrite Ekey, bind_inr. cbv zeta.
  rewrite (calculateModelParameters_no_heads m Hm (conj Cn (ex_intro _ key Ekey)) Hheads).
  destruct (Cn "num_hidden_layers" ltac:(simpl; tauto)) as [L EL].
  destruct (Cn "hidden_size" ltac:(simpl; tauto)) as [h Eh].
  rewrite EL, Eh. evaluate. rewrite ?bind_inr.
  destruct (ToNumber host (nullish (get bytes_table key) (VNumber 4)))
    as [e|bytes] eqn:Eb.
  - exfalso. revert Eb. unfold get, bytes_table. cbn [assoc].
    destruct (String.eqb key "float32"); [discriminate|].
    destruct (String.eqb key "float16"); [discriminate|].
    destruct (String.eqb key "bfloat16"); [discriminate|].
    destruct (assoc key Object_prototype) as [v|] eqn:Ev; [|discriminate].
    simpl in Ev.
    repeat match type of Ev with
           | (if ?c then _ else _) = _ => destruct c; [injection Ev as <-; discriminate|]
           end.
    discriminate Ev.
  - evaluate.
    rewrite add_NaN_l, mul_NaN_l. reflexivity.
Qed.

Lemma calculateOperations_converts m seq b :
  RequireObjectCoercible m = inr tt -> converts host m ->
  exists ops, calculateOperations host m seq b = inr ops.
Proof.
  intros Hm C. unfold calculateOperations. rewrite Hm, bind_inr. cbv zeta.
  destruct (converts_number _ "num_attention_heads" C ltac:(simpl; tauto))
    as [a Ea].
  rewrite Ea. convert_fields C.
  destruct (includes _ _); evaluate; eexists; reflexivity.
Qed.

Lemma calculateThroughput_no_heads cfg m mem flops b seq :
  JSON_parse host cfg = inr m ->
  RequireObjectCoercible m = inr tt -> converts host m ->
  get m "num_attention_heads" = VUndefined ->
  calculateThroughput host cfg mem flops b seq = inr NaN.
Proof.
  intros Hparse Hm C Hheads.
  destruct (calculateOperations_converts m seq b Hm C) as [ops Eops].
  unfold calculateThroughput.
  rewrite Hparse, bind_inr.
  rewrite (calculateMemoryReads_no_heads m seq b Hm C Hheads), bind_inr.
  evaluate.
  rewrite Eops, bind_inr.
  evaluate.
  rewrite catch_number.
  rewrite div_NaN_l, add_NaN_l, div_NaN_r. reflexivity.
Qed.

(** With a head count of zero the division by it is [+Infinity] (the
    other dimensions are positive), and so are the three counts. *)
Lemma zero_heads_Q r :
  zero_heads r ->
  (0 < inject_Z (hidden_size r) /\ 0 < inject_Z (num_hidden_layers r) /\
   0 < inject_Z (intermediate_size r) /\ 0 < inject_Z (vocab_size r) /\
   0 < inject_Z (num_key_value_heads r))%Q.
Proof.
  intros [H1 H2 H3 H4 _ H6].
  change 0%Q with (inject_Z 0).
  rewrite <- !Zlt_Qlt. tauto.
Qed.

Ltac infinite :=
  apply (f_equal (@inr exn number));
  match goal with
  | |- ?x = Inf false =>
      let H := fresh in
      eassert (H : positive_or_infinite x _) by follow_positive;
      exact H
  end.

Lemma calculateModelParameters_zero_heads m r :
  describes m r -> zero_heads r ->
  calculateModelParameters host m = inr (Inf false).
Proof.
  intros D Z. pose proof (zh_num_attention_heads r Z) as Hzero.
  apply zero_heads_Q in Z. destruct Z as (Hh & HL & Hi & Hv & Hk).
  unfold calculateModelParameters.
  rewrite (describes_coercible m r D), bind_inr. cbv zeta.
  read_fields D. rewrite Hzero.
  cbn [ToNumber]. unfold number_of_Z. change (inject_Z 0) with 0%Q.
  destruct (includes _ _), (ToBoolean _); evaluate; infinite.
Qed.

Lemma calculateOperations_zero_heads m r s b :
  describes m r -> zero_heads r -> (0 < s)%Q -> (0 < b)%Q ->
  calculateOperations host m (Fin s) (Fin b) = inr (Inf false).
Proof.
  intros D Z Hs Hb. pose proof (zh_num_attention_heads r Z) as Hzero.
  apply zero_heads_Q in Z. destruct Z as (Hh & HL & Hi & Hv & Hk).
  unfold calculateOperations.
  rewrite (describes_coercible m r D), bind_inr. cbv zeta.
  read_fields D. rewrite Hzero.
  cbn [ToNumber]. unfold number_of_Z. change (inject_Z 0) with 0%Q.
  destruct (includes _ _); evaluate; infinite.
Qed.

Lemma calculateMemoryReads_zero_heads m r tag s b :
  describes m r -> zero_heads r -> precision m tag -> own_tag tag ->
  (0 < s)%Q -> (0 < b)%Q ->
  calculateMemoryReads host m (Fin s) (Fin b) = inr (Inf false).
Proof.
  intros D Z Htag Hown Hs Hb.
  pose proof (calculateModelParameters_zero_heads m r D Z) as Hparams.
  destruct (bytes_of_tag m tag Htag Hown) as [key [Ekey Ebytes]].
  apply zero_heads_Q in Z. destruct Z as (Hh & HL & Hi & Hv & Hk).
  pose proof (bytesPerElement_pos tag) as Hbytes.
  unfold calculateMemoryReads.
  rewrite (describes_coercible m r D), bind_inr, Ekey, bind_inr. cbv zeta.
  rewrite Hparams, Ebytes.
  read_fields D. cbn [ToNumber]. unfold number_of_Z. evaluate. rewrite ?bind_inr. evaluate. infinite.
Qed.

Lemma calculateThroughput_zero_heads cfg m r tag bw tf b s :
  JSON_parse host cfg = inr m ->
  describes m r -> zero_heads r -> precision m tag -> own_tag tag ->
  (0 < bw)%Q -> (0 < tf)%Q -> (0 < b)%Q -> (0 < s)%Q ->
  calculateThroughput host cfg (Fin bw) (Fin tf) (Fin b) (Fin s) = inr 0%js.
Proof.
  intros Hparse D Z Htag Hown Hbw Htf Hb Hs.
  unfold calculateThroughput.
  rewrite Hparse, bind_inr.
  rewrite (calculateMemoryReads_zero_heads m r tag s b D Z Htag Hown Hs Hb).
  rewrite ?bind_inr. evaluate.
  rewrite (calculateOperations_zero_heads m r s b D Z Hs Hb).
  rewrite ?bind_inr. evaluate.
  rewrite catch_number.
  apply (f_equal (@inr exn number)).
  match goal with
  | |- div _ ?d = _ =>
      assert (K : d = Inf false);
      [ let H := fresh in
        eassert (H : positive_or_infinite d _) by follow_positive;
        exact H
      | rewrite K ]
  end.
  apply (positive_div_infinite (Fin b) b). apply positive_Fin. assumption.
Qed.

End Calculators.

(** ** The loop of the curve effect *)

Section Integers.

Local Open Scope Q_scope.

Lemma Qred_inject_Z z : Qred (inject_Z z) = inject_Z z.
Proof.
  unfold Qred, inject_Z.
  pose proof (Z.ggcd_gcd z 1) as G.
  pose proof (Z.ggcd_correct_divisors z 1) as C.
  destruct (Z.ggcd z 1) as [g [aa bb]]. simpl in *.
  rewrite Z.gcd_1_r in G. subst g. destruct C as [C1 C2].
  rewrite Z.mul_1_l in C1, C2. subst. reflexivity.
Qed.

Lemma add_number_of_Z a b :
  add (number_of_Z a) (number_of_Z b) = number_of_Z (a + b).
Proof.
  unfold number_of_Z. rewrite add_Fin. f_equal.
  rewrite <- (Qred_inject_Z (a + b)). apply Qred_complete.
  rewrite inject_Z_plus. reflexivity.
Qed.

Lemma le_number_of_Z z ms :
  le (number_of_Z z) (Fin ms) = (z <=? Qfloor ms)%Z.
Proof.
  unfold number_of_Z, le, magnitude.
  destruct (Z.leb_spec z (Qfloor ms)) as [H|H].
  - apply Qle_bool_iff.
    apply Qle_trans with (inject_Z (Qfloor ms)); [|apply Qfloor_le].
    rewrite <- Zle_Qle. assumption.
  - destruct (Qle_bool (inject_Z z) ms) eqn:E; [|reflexivity].
    apply Qle_bool_iff in E. apply Qfloor_resp_le in E.
    rewrite Qfloor_Z in E. lia.
Qed.

Lemma le_integers a b : le (Fin (inject_Z a)) (Fin (inject_Z b)) = (a <=? b)%Z.
Proof.
  rewrite <- (Qfloor_Z b) at 2. apply (le_number_of_Z a (inject_Z b)).
Qed.

Lemma Math_max_1 k : Math_max 1 (number_of_Z k) = number_of_Z (Z.max 1 k).
Proof.
  unfold number_of_Z, Math_max. change 1%Q with (inject_Z 1).
  rewrite !le_integers.
  destruct (Z.leb_spec 1 k) as [H|H].
  - destruct (Z.leb_spec k 1) as [H'|H'].
    + simpl. replace (Z.max 1 k) with 1%Z by lia. reflexivity.
    + replace (Z.max 1 k) with k by lia. reflexivity.
  - replace (Z.max 1 k) with 1%Z by lia. reflexivity.
Qed.

(** The step the effect computes is the step of the specification. *)
Lemma step_number ms :
  0 <= ms ->
  Math_max 1 (Math_floor (div (Fin ms) 800)) = number_of_Z (Spec.step ms).
Proof.
  intros H. change 800%js with (Fin 800).
  rewrite div_Fin by (assumption || reflexivity).
  unfold Math_floor. rewrite (Qfloor_comp _ _ (Qred_correct (ms / 800))).
  apply Math_max_1.
Qed.

End Integers.

Lemma samples_shift z k n :
  map (fun j => number_of_Z (z + Z.of_nat j * k)) (seq 0 (S n)) =
  number_of_Z z :: map (fun j => number_of_Z (z + k + Z.of_nat j * k)) (seq 0 n).
Proof.
  cbn [seq map]. f_equal.
  - f_equal. simpl. lia.
  - rewrite <- seq_shift, map_map. apply map_ext. intros j. f_equal.
    rewrite Nat2Z.inj_succ, Z.mul_succ_l. lia.
Qed.

Section Sweep.

Context (host : Host) (cfg : string) (mem fl bs : number).

Lemma sweep_O ms step s xs ty py :
  sweep host cfg mem fl bs ms step O s xs ty py =
  if le s ms then inr None else inr (Some (xs, ty, py)).
Proof. reflexivity. Qed.

Lemma sweep_S ms step fuel s xs ty py :
  sweep host cfg mem fl bs ms step (S fuel) s xs ty py =
  if le s ms then
    t <- calculateThroughput host cfg mem fl bs s ;;
    sweep host cfg mem fl bs ms step fuel (add s step)
          (xs ++ [s]) (ty ++ [t]) (py ++ [div t bs])
  else inr (Some (xs, ty, py)).
Proof. reflexivity. Qed.

(** Each turn of the loop adds one point to each array, the per-user
    point being the total one divided by the batch size. *)
Lemma sweep_invariant ms step fuel :
  forall s xs ty py xs' ty' py',
    sweep host cfg mem fl bs ms step fuel s xs ty py = inr (Some (xs', ty', py')) ->
    length xs = length ty -> Forall2 (per_user bs) ty py ->
    length xs' = length ty' /\ Forall2 (per_user bs) ty' py'.
Proof.
  induction fuel as [|fuel IH]; intros s xs ty py xs' ty' py' E Hlen Hrel;
    [rewrite sweep_O in E | rewrite sweep_S in E]; destruct (le s ms).
  - discriminate E.
  - injection E as <- <- <-. split; assumption.
  - destruct (calculateThroughput_total host cfg mem fl bs s) as [t Et].
    rewrite Et, bind_inr in E.
    apply IH in E; [assumption | |].
    + rewrite !length_app, Hlen. reflexivity.
    + apply Forall2_app; [assumption|]. constructor; [reflexivity | constructor].
  - injection E as <- <- <-. split; assumption.
Qed.

(** The loop throws nothing: the one call in its body returns. *)
Lemma sweep_returns ms step fuel :
  forall s xs ty py,
    exists r, sweep host cfg mem fl bs ms step fuel s xs ty py = inr r.
Proof.
  induction fuel as [|fuel IH]; intros s xs ty py;
    [rewrite sweep_O | rewrite sweep_S]; destruct (le s ms);
    try (eexists; reflexivity).
  destruct (calculateThroughput_total host cfg mem fl bs s) as [t Et].
  rewrite Et, bind_inr. apply IH.
Qed.

(** From the counter [z], with [n] sampling points left below the maximum,
    the loop adds exactly these [n] points and comes to its exit. *)
Lemma sweep_run ms k :
  (0 < k)%Z ->
  forall n fuel z xs ty py,
    (n <= fuel)%nat ->
    (forall j, (j < n)%nat -> z + Z.of_nat j * k <= Qfloor ms)%Z ->
    (Qfloor ms < z + Z.of_nat n * k)%Z ->
    exists ty' py',
      sweep host cfg mem fl bs (Fin ms) (number_of_Z k) fuel (number_of_Z z)
            xs ty py
      = inr (Some ((xs ++ map (fun j => number_of_Z (z + Z.of_nat j * k)) (seq 0 n),
                    ty ++ ty', py ++ py'))%list)
      /\ length ty' = n /\ length py' = n.
Proof.
  intros Hk. induction n as [|n IH]; intros fuel z xs ty py Hfuel Hin Hout.
  - exists [], []. rewrite !app_nil_r. split; [|split; reflexivity].
    destruct fuel; [rewrite sweep_O | rewrite sweep_S];
      rewrite le_number_of_Z;
      destruct (Z.leb_spec z (Qfloor ms)); try reflexivity; simpl in Hout; lia.
  - destruct fuel as [|fuel]; [lia|].
    rewrite sweep_S, le_number_of_Z.
    assert (Hz : (z <= Qfloor ms)%Z).
    { specialize (Hin 0%nat). simpl in Hin. lia. }
    destruct (Z.leb_spec z (Qfloor ms)); [|lia].
    destruct (calculateThroughput_total host cfg mem fl bs (number_of_Z z))
      as [t Et].
    rewrite Et, bind_inr, add_number_of_Z.
    destruct (IH fuel (z + k)%Z (xs ++ [number_of_Z z]) (ty ++ [t])
                 (py ++ [div t bs])) as [ty' [py' [E [Lt Lp]]]].
    + lia.
    + intros j Hj. specialize (Hin (S j)).
      rewrite Nat2Z.inj_succ, Z.mul_succ_l in Hin. lia.
    + rewrite Nat2Z.inj_succ, Z.mul_succ_l in Hout. lia.
    + exists (t :: ty'), (div t bs :: py'). rewrite E.
      split; [|simpl; split; congruence].
      rewrite samples_shift, <- !app_assoc. reflexivity.
Qed.

End Sweep.

(** *** The sampling points *)

Section Samples.

Local Open Scope Z_scope.

Lemma Qfloor_div_800 ms : Qfloor (ms / 800) = Qfloor ms / 800.
Proof.
  destruct ms as [p q]. unfold Qdiv, Qinv, Qmult, Qfloor. simpl Qnum. simpl Qden.
  rewrite Z.mul_1_r, Pos2Z.inj_mul, Z.div_div by lia. reflexivity.
Qed.

Lemma step_pos ms : 0 < Spec.step ms.
Proof. unfold Spec.step. lia. Qed.

Lemma samples_length ms :
  length (Spec.samples ms) = Z.to_nat ((Qfloor ms - 1) / Spec.step ms + 1).
Proof. unfold Spec.samples. rewrite length_map, length_seq. reflexivity. Qed.

Lemma samples_nth ms j :
  (j < length (Spec.samples ms))%nat ->
  nth_error (Spec.samples ms) j = Some (1 + Z.of_nat j * Spec.step ms).
Proof.
  intros H. rewrite samples_length in H. unfold Spec.samples.
  rewrite nth_error_map, nth_error_seq.
  destruct (Nat.ltb_spec j (Z.to_nat ((Qfloor ms - 1) / Spec.step ms + 1)));
    [reflexivity | lia].
Qed.

(** Every point is in the range, and the point after the last is not. *)
Lemma samples_range ms :
  1 <= Qfloor ms ->
  (forall j, (j < length (Spec.samples ms))%nat ->
             1 + Z.of_nat j * Spec.step ms <= Qfloor ms) /\
  Qfloor ms < 1 + Z.of_nat (length (Spec.samples ms)) * Spec.step ms /\
  (length (Spec.samples ms) <= Z.to_nat (Qfloor ms))%nat.
Proof.
  intros HM. rewrite samples_length.
  pose proof (step_pos ms) as Hk.
  set (k := Spec.step ms) in *. set (M := Qfloor ms) in *.
  assert (Hq : 0 <= (M - 1) / k) by (apply Z.div_pos; lia).
  pose proof (Z.mul_div_le (M - 1) k Hk) as Hlow.
  pose proof (Z.mul_succ_div_gt (M - 1) k Hk) as Hup.
  repeat split.
  - intros j Hj.
    assert (Z.of_nat j <= (M - 1) / k) by lia.
    nia.
  - rewrite Z2Nat.id by lia. nia.
  - assert ((M - 1) / k <= M - 1).
    { apply Z.div_le_upper_bound; [lia|]. nia. }
    lia.
Qed.

(** At most 1599 points, and 800 points or more once the maximum is 800
    or more. *)
Lemma samples_count ms :
  1 <= Qfloor ms ->
  (length (Spec.samples ms) <= 1599)%nat /\
  (800 <= Qfloor ms -> (800 <= length (Spec.samples ms))%nat).
Proof.
  intros HM. rewrite samples_length. unfold Spec.step.
  rewrite Qfloor_div_800.
  set (M := Qfloor ms) in *.
  pose proof (Z.mul_div_le M 800 eq_refl) as Hlow.
  pose proof (Z.mul_succ_div_gt M 800 eq_refl) as Hup.
  destruct (Z.max_spec 1 (M / 800)) as [[Hc ->]|[Hc ->]].
  - assert (Hk : 0 < M / 800) by lia.
    pose proof (Z.mul_div_le (M - 1) (M / 800) Hk) as Hlow'.
    pose proof (Z.mul_succ_div_gt (M - 1) (M / 800) Hk) as Hup'.
    assert (Hq : 0 <= (M - 1) / (M / 800)) by (apply Z.div_pos; lia).
    split; [|intros _]; apply Nat2Z.inj_le; rewrite Z2Nat.id by lia;
      simpl Z.of_nat; nia.
  - rewrite Z.div_1_r.
    split; [|intros H]; apply Nat2Z.inj_le; rewrite Z2Nat.id by lia;
      simpl Z.of_nat; nia.
Qed.

(** Exactly 800 points at the multiples of 800. *)
Lemma samples_count_multiple ms k :
  0 < k -> Qfloor ms = 800 * k -> length (Spec.samples ms) = 800%nat.
Proof.
  intros Hk HM. rewrite samples_length. unfold Spec.step.
  rewrite Qfloor_div_800, HM.
  replace (800 * k / 800) with k by (apply Z.div_unique_exact; lia).
  rewrite Z.max_r by lia.
  replace ((800 * k - 1) / k) with 799; [reflexivity|].
  apply Z.div_unique with (k - 1); lia.
Qed.

End Samples.

(** *** The effect *)

Lemma Qfloor_ge_1 ms : (1 <= ms)%Q -> (1 <= Qfloor ms)%Z.
Proof.
  intros H. apply Qfloor_resp_le in H. exact H.
Qed.

(** With a text and a finite maximum of 1 or more, the effect comes to its
    end and publishes two curves over the sampling points. *)
Lemma curve_effect_samples (host : Host) st ms :
  maxSeqLen st = Fin ms -> (1 <= ms)%Q -> dCfg st <> "" ->
  exists ty py,
    curve_effect host st =
      inr (Some (setThroughputData
                   {| total := Trace.make (map number_of_Z (Spec.samples ms)) ty;
                      perUser := Trace.make (map number_of_Z (Spec.samples ms)) py |}
                   st)) /\
    length ty = length (Spec.samples ms) /\
    length py = length (Spec.samples ms).
Proof.
  intros Hms H1 Hcfg.
  pose proof (Qfloor_ge_1 ms H1) as HM.
  destruct (samples_range ms HM) as (Hin & Hout & Hfuel).
  destruct (sweep_run host (dCfg st) (memoryBandwidth st) (computePower st)
              (batchSize st) ms (Spec.step ms) (step_pos ms)
              (length (Spec.samples ms)) (Z.to_nat (Qfloor ms)) 1 [] [] []
              Hfuel Hin Hout) as [ty [py [E [Lt Lp]]]].
  exists ty, py. split; [|split; assumption].
  unfold curve_effect.
  destruct (String.eqb_spec (dCfg st) ""); [contradiction|].
  cbv zeta. rewrite Hms, step_number by lra.
  unfold sweep_fuel. change 1%js with (number_of_Z 1).
  assert (Hmap : map (fun j => number_of_Z (1 + Z.of_nat j * Spec.step ms))
                     (seq 0 (length (Spec.samples ms)))
                 = map number_of_Z (Spec.samples ms)).
  { rewrite samples_length. unfold Spec.samples. rewrite map_map. reflexivity. }
  rewrite !app_nil_l, Hmap in E.
  rewrite E, bind_inr. reflexivity.
Qed.

Lemma curve_effect_returns (host : Host) st :
  exists r, curve_effect host st = inr r.
Proof.
  unfold curve_effect.
  destruct (String.eqb (dCfg st) ""); [eexists; reflexivity|].
  cbv zeta.
  match goal with
  | |- exists r, bind (sweep ?h ?c ?m ?f ?b ?ms ?k ?fuel ?s ?xs ?ty ?py) _ = _ =>
      destruct (sweep_returns h c m f b ms k fuel s xs ty py) as [r Er];
      rewrite Er, bind_inr
  end.
  destruct r as [[[xs ty] py]|]; eexists; reflexivity.
Qed.

Lemma curve_effect_empty (host : Host) st :
  dCfg st = "" -> curve_effect host st = inr (Some st).
Proof. intros E. unfold curve_effect. rewrite E. reflexivity. Qed.

(** Whenever the effect publishes curves, they have one list of
    x-coordinates and their points are related one by one. *)
Lemma curve_effect_invariant (host : Host) st st' :
  dCfg st <> "" -> curve_effect host st = inr (Some st') ->
  Trace.x (perUser (throughputData st')) = Trace.x (total (throughputData st')) /\
  length (Trace.y (total (throughputData st'))) =
    length (Trace.x (total (throughputData st'))) /\
  Forall2 (per_user (batchSize st))
          (Trace.y (total (throughputData st')))
          (Trace.y (perUser (throughputData st'))).
Proof.
  intros Hcfg E. unfold curve_effect in E.
  destruct (String.eqb_spec (dCfg st) ""); [contradiction|].
  cbv zeta in E.
  destruct (sweep _ _ _ _ _ _ _ _ _ _ _ _) as [e|[[[xs ty] py]|]] eqn:Es;
    try discriminate E.
  rewrite bind_inr in E. injection E as <-. simpl.
  apply sweep_invariant in Es; [|reflexivity|constructor].
  destruct Es as [Hlen Hrel]. split; [reflexivity|]. split; [symmetry|]; assumption.
Qed.

Lemma Forall2_nth_error {A B : Type} (R : A -> B -> Prop) l l' i a :
  Forall2 R l l' -> nth_error l i = Some a ->
  exists b, nth_error l' i = Some b /\ R a b.
Proof.
  intros H. revert i. induction H as [|x y l l' Hxy H IH]; intros i Hi.
  - destruct i; discriminate Hi.
  - destruct i as [|i]; simpl in *.
    + injection Hi as <-. exists y. split; [reflexivity | assumption].
    + apply IH. assumption.
Qed.

(** ** The debounce *)

Section Debounce.

Lemma advance_quiet t w :
  timers w = [] -> (now w <= t)%nat ->
  advance t w =
    {| now := t; timers := []; next_id := next_id w; config := config w;
       debounced := debounced w; cleanup := cleanup w;
       effect_runs := effect_runs w |}.
Proof.
  intros Ht Hnow. unfold advance. rewrite Ht. simpl.
  rewrite Ht, Nat.max_r by assumption. reflexivity.
Qed.

(** Before the timer is due nothing happens but the passing of time. *)
Lemma advance_pending t text t' w :
  pending w t text -> (t <= t' /\ t' < t + 200)%nat ->
  advance t' w =
    {| now := t'; timers := timers w; next_id := next_id w; config := config w;
       debounced := debounced w; cleanup := cleanup w;
       effect_runs := effect_runs w |}.
Proof.
  intros (tm & Ht & _ & Hdue & _ & _ & Hnow) [H1 H2].
  unfold advance. rewrite Ht. simpl. rewrite Ht. simpl.
  destruct (Nat.leb_spec (due tm) t'); [lia|].
  rewrite Ht, Hnow, Nat.max_r by assumption. reflexivity.
Qed.

(** An edit that changes the text clears the timer the last effect has
    set and sets one for the new text. *)
Lemma setConfig_schedules text w :
  text <> config w ->
  (timers w = [] \/ exists tm, timers w = [tm] /\ cleanup w = Some (id tm)) ->
  pending (setConfig text w) (now w) text /\
  debounced (setConfig text w) = debounced w /\
  effect_runs (setConfig text w) = effect_runs w.
Proof.
  intros Hneq Ht. unfold setConfig.
  destruct (String.eqb_spec text (config w)); [contradiction|].
  unfold useDebounce_effect. cbn [cleanup].
  assert (Hclear : timers (match cleanup w with
                           | Some i =>
                               clearTimeout i
                                 {| now := now w; timers := timers w;
                                    next_id := next_id w; config := text;
                                    debounced := debounced w;
                                    cleanup := cleanup w;
                                    effect_runs := effect_runs w |}
                           | None =>
                               {| now := now w; timers := timers w;
                                  next_id := next_id w; config := text;
                                  debounced := debounced w;
                                  cleanup := cleanup w;
                                  effect_runs := effect_runs w |}
                           end) = []).
  { destruct Ht as [Ht|[tm [Ht Hc]]].
    - destruct (cleanup w); simpl; rewrite Ht; reflexivity.
    - rewrite Hc. simpl. rewrite Ht. simpl. rewrite Nat.eqb_refl. reflexivity. }
  destruct (cleanup w) as [i|]; simpl in *; rewrite Hclear;
    (split; [|split; reflexivity]); eexists; simpl; repeat split; reflexivity.
Qed.

Lemma edit_quiet t text w :
  timers w = [] -> (now w <= t)%nat -> text <> config w ->
  pending (setConfig text (advance t w)) t text /\
  debounced (setConfig text (advance t w)) = debounced w /\
  effect_runs (setConfig text (advance t w)) = effect_runs w.
Proof.
  intros Ht Hnow Hneq. rewrite (advance_quiet t w Ht Hnow).
  apply (setConfig_schedules text
           {| now := t; timers := []; next_id := next_id w; config := config w;
              debounced := debounced w; cleanup := cleanup w;
              effect_runs := effect_runs w |}); [assumption | left; reflexivity].
Qed.

Lemma edit_pending t text t' text' w :
  pending w t text -> (t <= t' /\ t' < t + 200)%nat -> text' <> text ->
  pending (setConfig text' (advance t' w)) t' text' /\
  debounced (setConfig text' (advance t' w)) = debounced w /\
  effect_runs (setConfig text' (advance t' w)) = effect_runs w.
Proof.
  intros Hp Hwin Hneq. rewrite (advance_pending t text t' w Hp Hwin).
  destruct Hp as (tm & Ht & _ & _ & Hc & Hcfg & _).
  apply (setConfig_schedules text'
           {| now := t'; timers := timers w; next_id := next_id w;
              config := config w; debounced := debounced w;
              cleanup := cleanup w; effect_runs := effect_runs w |}).
  - simpl. congruence.
  - right. exists tm. split; assumption.
Qed.

(** Through a burst the last edit is the one that is waiting, and the
    curve effect has not run. *)
Lemma burst_pending es :
  forall w t text,
    pending w t text -> within_window t es -> changing text es ->
    pending (edits es w) (final t (map fst es)) (final text (map snd es)) /\
    debounced (edits es w) = debounced w /\
    effect_runs (edits es w) = effect_runs w.
Proof.
  induction es as [|[t' text'] es IH]; intros w t text Hp Hwin Hch.
  - simpl. auto.
  - simpl in Hwin, Hch. destruct Hwin as [Hwin Hrest]. destruct Hch as [Hneq Hch].
    destruct (edit_pending t text t' text' w Hp Hwin Hneq) as (Hp' & Hd & Hr).
    destruct (IH _ t' text' Hp' Hrest Hch) as (Hp'' & Hd' & Hr').
    simpl. split; [assumption|]. split; congruence.
Qed.

(** Once the timer of the waiting edit is due it runs: the debounced text
    becomes the text of the edit, and the curve effect runs if that is a
    change. *)
Lemma advance_fires t text T w :
  pending w t text -> (t + 200 <= T)%nat ->
  timers (advance T w) = [] /\
  debounced (advance T w) = text /\
  config (advance T w) = text /\
  effect_runs (advance T w) =
    effect_runs w ++ (if String.eqb text (debounced w) then [] else [text]).
Proof.
  intros (tm & Ht & Hpay & Hdue & _ & Hcfg & _) HT.
  unfold advance. rewrite Ht. simpl. rewrite Ht. simpl.
  destruct (Nat.leb_spec (due tm) T); [|lia].
  unfold fire, setDebounced. cbn [debounced]. rewrite Hpay, Ht. simpl.
  rewrite Nat.eqb_refl. simpl.
  destruct (String.eqb_spec text (debounced w)) as [E|E]; simpl.
  - rewrite app_nil_r. auto.
  - auto.
Qed.

Lemma within_window_prefix t p q :
  within_window t (p ++ q) -> within_window t p.
Proof.
  revert t. induction p as [|[t' text'] p IH]; intros t H; simpl in *.
  - exact I.
  - destruct H as [H1 H2]. split; [assumption | apply IH; assumption].
Qed.

Lemma changing_prefix text p q : changing text (p ++ q) -> changing text p.
Proof.
  revert text. induction p as [|[t' text'] p IH]; intros text H; simpl in *.
  - exact I.
  - destruct H as [H1 H2]. split; [assumption | apply IH; assumption].
Qed.

End Debounce.

(** * The claims *)

(** The rational count is the integer count when the head count divides
    the hidden size. *)
Lemma parameter_count_integer r gated tied :
  (0 < num_attention_heads r)%Z ->
  (num_attention_heads r | hidden_size r)%Z ->
  (Spec.parameter_count r gated tied ==
   inject_Z (Spec.parameter_count_Z r gated tied))%Q.
Proof.
  intros Ha [k Hk].
  assert (Hq : (hidden_size r / num_attention_heads r = k)%Z).
  { rewrite Hk. apply Z.div_mul. lia. }
  unfold Spec.parameter_count_Z. cbv zeta. rewrite Hq, Z.pow_2_r.
  unfold Spec.parameter_count, Spec.embedding, Spec.attention_params,
    Spec.feedforward_params, Spec.layernorm_params.
  rewrite Hk.
  assert (Hne : ~ (inject_Z (num_attention_heads r) == 0)%Q).
  { change 0%Q with (inject_Z 0). rewrite inject_Z_injective. lia. }
  destruct gated, tied;
    repeat (rewrite inject_Z_plus || rewrite inject_Z_mult);
    change (inject_Z 1) with 1%Q; change (inject_Z 2) with 2%Q;
    change (inject_Z 3) with 3%Q; change (inject_Z 4) with 4%Q;
    field; exact Hne.
Qed.





(** C3, where the code departs from it.  When the precision tag of a
    configuration names a property of [Object.prototype], the table of byte
    widths answers with the inherited property, [??] keeps it, and
    [calculateMemoryReads] returns NaN, not [(parameters + kv) * 4]. *)
Theorem calculateMemoryReads_inherited_tag (host : Host) m r tag seq b :
  describes m r ->
  get m "torch_dtype" = VString tag ->
  In tag (map fst Object_prototype) ->
  calculateMemoryReads host m seq b = inr NaN.
Proof.
  intros D Htag Hin.
  assert (Hbytes : ToNumber host (nullish (get bytes_table tag) (VNumber 4))
                   = of_number NaN).
  { simpl in Hin.
    repeat (destruct Hin as [<-|Hin]; [reflexivity|]). contradiction. }
  destruct (calculateModelParameters_described host m r D) as [p Ep].
  unfold calculateMemoryReads.
  rewrite (describes_coercible m r D), bind_inr, Htag.
  change (ToString host (VString tag)) with (@inr exn string tag).
  rewrite bind_inr. cbv zeta. rewrite Hbytes, Ep.
  read_fields D. cbn [ToNumber]. evaluate. rewrite ?bind_inr. evaluate.
  rewrite mul_NaN_r. reflexivity.
Qed.

Lemma calculateMemoryReads_inherited_tag_witness :
  calculateMemoryReads (sample_host sample_texts) gpt2_constructor 1 1 = inr NaN.
Proof.
  refine (calculateMemoryReads_inherited_tag (sample_host sample_texts)
            gpt2_constructor gpt2_record "constructor" 1 1 _ _ _).
  - split; reflexivity.
  - reflexivity.
  - simpl. tauto.
Defined.

(** The formula of section 4.4 on the tags the table does not inherit. *)
Lemma calculateMemoryReads_formula (host : Host) m r tag (seqLen batchSize : Q) :
  describes m r -> dimensions_ok r -> precision m tag -> own_tag tag ->
  (0 <= seqLen)%Q -> (0 <= batchSize)%Q ->
  calculateMemoryReads host m (Fin seqLen) (Fin batchSize) =
    inr (Fin (Qred
      ((Spec.parameter_count r (isGated m) (isTied m) +
        batchSize * seqLen * inject_Z (num_hidden_layers r) *
        inject_Z (hidden_size r) * 2) * Spec.bytesPerElement tag)%Q)).
Proof.
  intros D Hr Htag Hown Hs Hb.
  apply (returns_eq _ _ (calculateMemoryReads_returns host m r tag seqLen batchSize
                           D Hr Htag Hown Hs Hb)).
Qed.










(** C7.  In every pair of curves the effect publishes, the two curves have
    the same x-coordinates and the same number of points, and each y of the
    per-user curve is the y of the total curve at that index divided by the
    batch size. *)
Theorem perUser_is_total_over_batch (host : Host) st st' :
  dCfg st <> "" -> curve_effect host st = inr (Some st') ->
  let c := throughputData st' in
  Trace.x (perUser c) = Trace.x (total c) /\
  length (Trace.y (total c)) = length (Trace.x (total c)) /\
  length (Trace.y (perUser c)) = length (Trace.x (total c)) /\
  forall i t,
    nth_error (Trace.y (total c)) i = Some t ->
    nth_error (Trace.y (perUser c)) i = Some (div t (batchSize st)).
Proof.
  intros Hcfg E c. subst c.
  destruct (curve_effect_invariant host st st' Hcfg E) as (Hx & Hlen & Hrel).
  split; [assumption|]. split; [assumption|]. split.
  - rewrite <- Hlen. symmetry. apply (Forall2_length Hrel).
  - intros i t Hi.
    destruct (Forall2_nth_error _ _ _ i t Hrel Hi) as [p [Hp ->]]. assumption.
Qed.

Lemma perUser_is_total_over_batch_witness :
  curve_effect (sample_host sample_texts) short_state = inr (Some short_state_after) /\
  forall i t,
    nth_error (Trace.y (total (throughputData short_state_after))) i = Some t ->
    nth_error (Trace.y (perUser (throughputData short_state_after))) i =
      Some (div t 4).
Proof.
  assert (E : curve_effect (sample_host sample_texts) short_state =
              inr (Some short_state_after)) by (vm_compute; reflexivity).
  split; [exact E|].
  refine (proj2 (proj2 (proj2
            (perUser_is_total_over_batch (sample_host sample_texts) short_state
               short_state_after _ E)))).
  discriminate.
Defined.

(** C8.  With a text and a maximum [ms] of 1 or more, the effect samples
    the sequence lengths [1], [1 + step], [1 + 2 step], ... with
    [step = max(1, floor(ms / 800))]: every point is between 1 and [ms],
    the point after the last would be beyond [ms], there are at most 1599
    points (800 or more once [ms] is 800 or more, exactly 800 at the
    multiples of 800), and these are the x-coordinates of both curves. *)
Theorem sweep_samples (host : Host) st (ms : Q) :
  maxSeqLen st = Fin ms -> (1 <= ms)%Q -> dCfg st <> "" ->
  let step := Z.max 1 (Qfloor (ms / 800)) in
  let points := Spec.samples ms in
  (exists ty py,
     curve_effect host st =
       inr (Some (setThroughputData
                    {| total := Trace.make (map number_of_Z points) ty;
                       perUser := Trace.make (map number_of_Z points) py |} st)) /\
     length ty = length points /\ length py = length points) /\
  (forall j, (j < length points)%nat ->
             nth_error points j = Some (1 + Z.of_nat j * step)%Z) /\
  (forall s, In s points -> (1 <= s)%Z /\ (inject_Z s <= ms)%Q) /\
  (ms < inject_Z (1 + Z.of_nat (length points) * step))%Q /\
  (1 <= length points <= 1599)%nat /\
  ((800 <= ms)%Q -> (800 <= length points)%nat) /\
  (forall k, (0 < k)%Z -> (ms == inject_Z (800 * k))%Q ->
             length points = 800%nat).
Proof.
  intros Hms H1 Hcfg. cbv zeta.
  change (Z.max 1 (Qfloor (ms / 800))) with (Spec.step ms).
  pose proof (Qfloor_ge_1 ms H1) as HM.
  pose proof (step_pos ms) as Hstep.
  destruct (samples_range ms HM) as (Hin & Hout & _).
  destruct (samples_count ms HM) as (Hmax & Hmin).
  split; [apply curve_effect_samples; assumption|].
  split; [apply samples_nth|].
  split; [|split; [|split; [split|split]]].
  - intros s Hs. apply In_nth_error in Hs. destruct Hs as [j Hj].
    assert (Hlt : (j < length (Spec.samples ms))%nat).
    { apply nth_error_Some. rewrite Hj. discriminate. }
    rewrite (samples_nth ms j Hlt) in Hj.
    assert (Hs : s = (1 + Z.of_nat j * Spec.step ms)%Z) by congruence.
    subst s. clear Hj. specialize (Hin j Hlt). split.
    + assert (0 <= Z.of_nat j * Spec.step ms)%Z
        by (apply Z.mul_nonneg_nonneg; lia).
      lia.
    + apply Qle_trans with (inject_Z (Qfloor ms)); [|apply Qfloor_le].
      rewrite <- Zle_Qle. assumption.
  - apply Qlt_le_trans with (inject_Z (Qfloor ms + 1)); [apply Qlt_floor|].
    rewrite <- Zle_Qle. lia.
  - rewrite samples_length.
    assert (0 <= (Qfloor ms - 1) / Spec.step ms)%Z by (apply Z.div_pos; lia).
    lia.
  - assumption.
  - intros H800. apply Hmin.
    apply Qfloor_resp_le in H800. exact H800.
  - intros k Hk E. apply (samples_count_multiple ms k Hk).
    rewrite (Qfloor_comp _ _ E). apply Qfloor_Z.
Qed.

Lemma sweep_samples_witness :
  (length (Spec.samples 2048) <= 1599)%nat /\
  (800 <= length (Spec.samples 2048))%nat.
Proof.
  pose proof (sweep_samples (sample_host sample_texts) sample_state 2048%Q
                eq_refl ltac:(discriminate) ltac:(discriminate)) as H.
  split.
  - exact (proj2 (proj1 (proj2 (proj2 (proj2 (proj2 H)))))).
  - refine (proj1 (proj2 (proj2 (proj2 (proj2 (proj2 H))))) _). discriminate.
Defined.




(** * Further properties of the code *)

(** ** The order of the numbers, [Math.min], [Math.max] and [clamp] *)

Section Order.

Lemma le_defined x y : le x y = true -> x <> NaN /\ y <> NaN.
Proof.
  destruct x as [|[]| |a], y as [|[]| |b]; simpl; intros H;
    try discriminate H; split; discriminate.
Qed.

Lemma le_refl x : x <> NaN -> le x x = true.
Proof.
  destruct x as [|[]| |a]; simpl; intros H; try reflexivity.
  - contradiction.
  - apply Qle_bool_iff. apply Qle_refl.
Qed.

Lemma le_trans x y z : le x y = true -> le y z = true -> le x z = true.
Proof.
  destruct x as [|[]| |a], y as [|[]| |b], z as [|[]| |c]; simpl;
    try discriminate; try reflexivity;
    rewrite ?Qle_bool_iff; intros; lra.
Qed.

Lemma le_total x y : x <> NaN -> y <> NaN -> le x y = true \/ le y x = true.
Proof.
  destruct x as [|[]| |a], y as [|[]| |b]; simpl; intros Hx Hy;
    try contradiction; auto; rewrite ?Qle_bool_iff; lra.
Qed.

Lemma Math_max_cases x y :
  x <> NaN -> y <> NaN ->
  (Math_max x y = x /\ le y x = true) \/ (Math_max x y = y /\ le x y = true).
Proof.
  intros Hx Hy.
  assert (E : Math_max x y =
              if le x y then
                if le y x then (if negative x then y else x) else y
              else x).
  { destruct x, y; try reflexivity; contradiction. }
  rewrite E.
  destruct (le x y) eqn:Exy.
  - destruct (le y x) eqn:Eyx.
    + destruct (negative x); auto.
    + auto.
  - destruct (le_total x y Hx Hy) as [H|H]; [congruence | auto].
Qed.

Lemma Math_min_cases x y :
  x <> NaN -> y <> NaN ->
  (Math_min x y = x /\ le x y = true) \/ (Math_min x y = y /\ le y x = true).
Proof.
  intros Hx Hy.
  assert (E : Math_min x y =
              if le x y then
                if le y x then (if negative x then x else y) else x
              else y).
  { destruct x, y; try reflexivity; contradiction. }
  rewrite E.
  destruct (le x y) eqn:Exy.
  - destruct (le y x) eqn:Eyx.
    + destruct (negative x); auto.
    + auto.
  - destruct (le_total x y Hx Hy) as [H|H]; [congruence | auto].
Qed.

(** A value other than NaN is clamped into the range. *)
Lemma clamp_bounds v lo hi :
  v <> NaN -> le lo hi = true ->
  le lo (clamp v lo hi) = true /\ le (clamp v lo hi) hi = true.
Proof.
  intros Hv Hr. destruct (le_defined lo hi Hr) as [Hlo Hhi].
  unfold clamp.
  assert (Hm : Math_max v lo <> NaN /\ le lo (Math_max v lo) = true).
  { destruct (Math_max_cases v lo Hv Hlo) as [[-> H]|[-> H]].
    - split; assumption.
    - split; [assumption | apply le_refl; assumption]. }
  destruct Hm as [Hm Hlom].
  destruct (Math_min_cases (Math_max v lo) hi Hm Hhi) as [[-> H]|[-> H]].
  - split; assumption.
  - split; [assumption | apply le_refl; assumption].
Qed.

(** A value strictly inside the range is left as it is. *)
Lemma clamp_inside v lo hi :
  lo <> NaN -> hi <> NaN -> le v lo = false -> le hi v = false ->
  clamp v lo hi = v.
Proof.
  intros Hlo Hhi H1 H2. unfold clamp.
  assert (Hv : v = NaN \/ v <> NaN) by (destruct v; auto; right; discriminate).
  destruct Hv as [->|Hv]; [reflexivity|].
  assert (Em : Math_max v lo = v).
  { destruct (Math_max_cases v lo Hv Hlo) as [[E _]|[_ E]];
      [exact E | congruence]. }
  rewrite Em.
  destruct (Math_min_cases v hi Hv Hhi) as [[E _]|[_ E]];
    [exact E | congruence].
Qed.

End Order.

(** ** The number fields *)

Section NumberFields.

Context (parseFloat : string -> number).

Lemma or_else_defined a b : b <> NaN -> or_else a b <> NaN.
Proof.
  intros Hb. unfold or_else.
  destruct (ToBoolean (VNumber a)) eqn:E; [|assumption].
  intros ->. discriminate E.
Qed.

Lemma or_else_falsy a b : a = NaN \/ is_zero a = true -> or_else a b = b.
Proof.
  unfold or_else. intros [->|H]; [reflexivity|].
  destruct a; try discriminate H; simpl in *; try reflexivity.
  rewrite H. reflexivity.
Qed.

Lemma or_else_truthy a b : a <> NaN -> is_zero a = false -> or_else a b = a.
Proof.
  unfold or_else. intros Ha H.
  destruct a; try contradiction; try discriminate H; simpl in *;
    try reflexivity.
  rewrite H. reflexivity.
Qed.

Lemma range_ordered c :
  le (Range.min (range_of c)) (Range.max (range_of c)) = true.
Proof. destruct c; vm_compute; reflexivity. Qed.

Lemma range_min_positive c x :
  le x (Range.min (range_of c)) = false -> is_zero x = false.
Proof.
  destruct x as [|s| |q]; try reflexivity.
  - destruct c; vm_compute; intros H; discriminate H.
  - destruct (Qeq_bool q 0) eqn:E; [|intros _; exact E].
    apply Qeq_bool_iff in E. intros H. exfalso.
    assert (Hle : le (Fin q) (Range.min (range_of c)) = true).
    { destruct c; simpl; apply Qle_bool_iff; rewrite E; discriminate. }
    congruence.
Qed.

Lemma clamp_min c :
  clamp (Range.min (range_of c)) (Range.min (range_of c))
        (Range.max (range_of c)) = Range.min (range_of c).
Proof. destruct c; vm_compute; reflexivity. Qed.

Lemma value_of_setter c v st : value_of c (setter c v st) = v.
Proof. destruct c; reflexivity. Qed.

Lemma value_of_setter_other c c' v st :
  c' <> c -> value_of c' (setter c v st) = value_of c' st.
Proof. destruct c, c'; intros H; try reflexivity; contradiction H; reflexivity. Qed.

Lemma stored_within c value st :
  within (range_of c) (value_of c (onNumberChange parseFloat c value st)).
Proof.
  unfold onNumberChange, numChange. rewrite value_of_setter.
  apply clamp_bounds; [|apply range_ordered].
  apply or_else_defined.
  apply (proj1 (le_defined _ _ (range_ordered c))).
Qed.

Lemma in_ranges_initial : in_ranges initial.
Proof. intros c. destruct c; split; vm_compute; reflexivity. Qed.

Lemma in_ranges_onNumberChange c value st :
  in_ranges st -> in_ranges (onNumberChange parseFloat c value st).
Proof.
  intros H c'.
  assert (D : c' = c \/ c' <> c) by (destruct c, c'; auto; right; discriminate).
  destruct D as [->|D].
  - apply stored_within.
  - unfold onNumberChange, numChange. rewrite value_of_setter_other by assumption.
    apply H.
Qed.

End NumberFields.

(** A value of a range whose lower end is positive is a finite number
    between the ends. *)
Lemma within_Fin r x a b :
  Range.min r = Fin a -> Range.max r = Fin b -> (0 < a)%Q -> within r x ->
  exists q, x = Fin q /\ (a <= q)%Q /\ (q <= b)%Q.
Proof.
  intros Ea Eb Ha [H1 H2]. rewrite Ea in H1. rewrite Eb in H2.
  destruct x as [|[]| |q]; simpl in *; try discriminate.
  - apply Qle_bool_iff in H1. lra.
  - exists q. apply Qle_bool_iff in H1. apply Qle_bool_iff in H2. auto.
Qed.

(** What [in_ranges] says of the four numbers of the state. *)
Lemma in_ranges_Q st :
  in_ranges st ->
  exists bw tf b ms,
    memoryBandwidth st = Fin bw /\ computePower st = Fin tf /\
    batchSize st = Fin b /\ maxSeqLen st = Fin ms /\
    (1 # 10 <= bw)%Q /\ (1 # 10 <= tf)%Q /\ (1 <= b)%Q /\ (b <= 1024)%Q /\
    (1024 <= ms)%Q /\ (ms <= 1048576)%Q.
Proof.
  intros H.
  destruct (within_Fin ranges.mem _ (1 # 10) 8192 eq_refl eq_refl eq_refl
              (H MemoryBandwidth)) as (bw & Ebw & Hbw & _).
  destruct (within_Fin ranges.flops _ (1 # 10) 8192 eq_refl eq_refl eq_refl
              (H ComputePower)) as (tf & Etf & Htf & _).
  destruct (within_Fin ranges.batch _ 1 1024 eq_refl eq_refl eq_refl
              (H BatchSize)) as (b & Eb & Hb & Hb').
  destruct (within_Fin ranges.seq _ 1024 1048576 eq_refl eq_refl eq_refl
              (H MaxSeqLen)) as (ms & Ems & Hms & Hms').
  exists bw, tf, b, ms. simpl in *. repeat split; assumption.
Qed.

(** ** The values of the curves *)

(** Each y of the total curve is the throughput at the x below it. *)
Lemma sweep_values (host : Host) cfg mem fl bs ms step fuel :
  forall s xs ty py xs' ty' py',
    sweep host cfg mem fl bs ms step fuel s xs ty py = inr (Some (xs', ty', py')) ->
    Forall2 (fun x t => calculateThroughput host cfg mem fl bs x = inr t) xs ty ->
    Forall2 (fun x t => calculateThroughput host cfg mem fl bs x = inr t) xs' ty'.
Proof.
  induction fuel as [|fuel IH]; intros s xs ty py xs' ty' py' E Hrel;
    [rewrite sweep_O in E | rewrite sweep_S in E]; destruct (le s ms).
  - discriminate E.
  - injection E as <- <- <-. assumption.
  - destruct (calculateThroughput_total host cfg mem fl bs s) as [t Et].
    rewrite Et, bind_inr in E.
    apply IH in E; [assumption|].
    apply Forall2_app; [assumption|]. constructor; [assumption | constructor].
  - injection E as <- <- <-. assumption.
Qed.

Lemma curve_effect_values (host : Host) st st' :
  dCfg st <> "" -> curve_effect host st = inr (Some st') ->
  Forall2 (fun x t =>
             calculateThroughput host (dCfg st) (memoryBandwidth st)
                                 (computePower st) (batchSize st) x = inr t)
          (Trace.x (total (throughputData st')))
          (Trace.y (total (throughputData st'))).
Proof.
  intros Hcfg E. unfold curve_effect in E.
  destruct (String.eqb_spec (dCfg st) ""); [contradiction|].
  cbv zeta in E.
  destruct (sweep _ _ _ _ _ _ _ _ _ _ _ _) as [e|[[[xs ty] py]|]] eqn:Es;
    try discriminate E.
  rewrite bind_inr in E. injection E as <-. simpl.
  apply sweep_values in Es; [assumption | constructor].
Qed.

Lemma Forall2_nth_error_r {A B : Type} (R : A -> B -> Prop) l l' i b :
  Forall2 R l l' -> nth_error l' i = Some b ->
  exists a, nth_error l i = Some a /\ R a b.
Proof.
  intros H. revert i. induction H as [|x y l l' Hxy H IH]; intros i Hi.
  - destruct i; discriminate Hi.
  - destruct i as [|i]; simpl in *.
    + injection Hi as <-. exists x. split; [reflexivity | assumption].
    + apply IH. assumption.
Qed.

(** A number the throughput calculator returns is in lowest terms. *)
Lemma calculateThroughput_canonical (host : Host) cfg mem flops b seq t :
  calculateThroughput host cfg mem flops b seq = inr t -> canonical t.
Proof.
  unfold calculateThroughput.
  destruct (JSON_parse host cfg) as [e|m];
    [rewrite bind_inl; intros E; injection E as <-; reflexivity|].
  rewrite bind_inr.
  destruct (calculateMemoryReads host m seq b) as [e|reads];
    [rewrite bind_inl; intros E; injection E as <-; reflexivity|].
  rewrite bind_inr. evaluate.
  destruct (calculateOperations host m seq b) as [e|ops];
    [rewrite bind_inl; intros E; injection E as <-; reflexivity|].
  rewrite bind_inr. evaluate. rewrite catch_number.
  intros E. injection E as <-. apply canonical_div.
Qed.

(** Dividing by 1 changes no number that is in lowest terms. *)
Lemma div_1 t : canonical t -> div t 1 = t.
Proof.
  destruct t as [|s| |q]; intros C; try reflexivity.
  - simpl. destruct s; reflexivity.
  - simpl in C. change 1%js with (Fin 1). unfold div.
    change (is_zero (Fin 1)) with false. cbv iota.
    change (negative (Fin 1)) with false. rewrite xorb_false_r.
    simpl magnitude. unfold fin.
    assert (Hq : Qred (q / 1) = q).
    { rewrite <- C at 2. apply Qred_complete. field. }
    destruct (negative (Fin q) && Qeq_bool (q / 1) 0) eqn:E.
    + exfalso. apply andb_prop in E. destruct E as [E1 E2].
      apply Qeq_bool_iff in E2. simpl in E1. apply Z.ltb_lt in E1.
      assert (q == 0)%Q by (rewrite <- E2; field).
      destruct q as [n d]. unfold Qeq in H. simpl in *. lia.
    + rewrite Hq. reflexivity.
Qed.

(** The throughput of a text that does not parse, or that parses to
    [null], at any point. *)
Lemma calculateThroughput_unusable (host : Host) cfg mem flops b seq :
  (exists e, JSON_parse host cfg = inl e) \/ JSON_parse host cfg = inr VNull ->
  calculateThroughput host cfg mem flops b seq = inr 0%js.
Proof.
  intros [[e E]|E].
  - apply (calculateThroughput_parse_error host cfg e). assumption.
  - apply calculateThroughput_null. assumption.
Qed.

Lemma div_0_Fin b : (0 < b)%Q -> div 0 (Fin b) = 0%js.
Proof.
  intros H. change 0%js with (Fin 0).
  rewrite div_Fin by (lra || assumption).
  reflexivity.
Qed.

(** ** A dimension that is not a number *)

Section MissingField.

Context (host : Host).

(** Arithmetic on NaN gives NaN. *)
Ltac absorb :=
  repeat first
    [ rewrite mul_NaN_l | rewrite mul_NaN_r | rewrite add_NaN_l
    | rewrite add_NaN_r | rewrite div_NaN_l | rewrite div_NaN_r
    | progress change (exponentiate NaN 2) with NaN ].

(** The six dimensions of a configuration whose conversions return. *)
Lemma converts_dimensions m :
  converts host m ->
  exists h L i v a kv,
    ToNumber host (get m "hidden_size") = of_number h /\
    ToNumber host (get m "num_hidden_layers") = of_number L /\
    ToNumber host (get m "intermediate_size") = of_number i /\
    ToNumber host (get m "vocab_size") = of_number v /\
    ToNumber host (get m "num_attention_heads") = of_number a /\
    ToNumber host (get m "num_key_value_heads") = of_number kv.
Proof.
  intros [C _].
  destruct (C "hidden_size" ltac:(simpl; tauto)) as [h Eh].
  destruct (C "num_hidden_layers" ltac:(simpl; tauto)) as [L EL].
  destruct (C "intermediate_size" ltac:(simpl; tauto)) as [i Ei].
  destruct (C "vocab_size" ltac:(simpl; tauto)) as [v Ev].
  destruct (C "num_attention_heads" ltac:(simpl; tauto)) as [a Ea].
  destruct (C "num_key_value_heads" ltac:(simpl; tauto)) as [kv Ekv].
  exists h, L, i, v, a, kv. tauto.
Qed.

Lemma of_number_inj a b : of_number a = of_number b -> a = b.
Proof. intros H. injection H as ->. reflexivity. Qed.

Lemma calculateModelParameters_not_a_number m k :
  RequireObjectCoercible m = inr tt -> converts host m ->
  In k numeric_fields -> ToNumber host (get m k) = of_number NaN ->
  calculateModelParameters host m = inr NaN.
Proof.
  intros Hm C Hk Hnan.
  destruct (converts_dimensions m C) as (h & L & i & v & a & kv & Eh & EL & Ei & Ev & Ea & Ekv).
  unfold calculateModelParameters. rewrite Hm, bind_inr. cbv zeta.
  simpl in Hk.
  destruct Hk as [<-|[<-|[<-|[<-|[<-|[<-|[]]]]]]];
    rewrite Hnan in *;
    match goal with
    | H : of_number NaN = of_number ?n |- _ =>
        apply of_number_inj in H; subst n
    end;
    rewrite ?Eh, ?EL, ?Ei, ?Ev, ?Ea, ?Ekv; evaluate; absorb; reflexivity.
Qed.

(** The table of widths answers every key with a value whose conversion
    returns. *)
Lemma bytes_convert key :
  exists bytes,
    ToNumber host (nullish (get bytes_table key) (VNumber 4)) = of_number bytes.
Proof.
  unfold get, bytes_table. cbn [assoc].
  destruct (String.eqb key "float32"); [eexists; reflexivity|].
  destruct (String.eqb key "float16"); [eexists; reflexivity|].
  destruct (String.eqb key "bfloat16"); [eexists; reflexivity|].
  destruct (assoc key Object_prototype) as [v|] eqn:Ev;
    [|eexists; reflexivity].
  simpl in Ev.
  repeat match type of Ev with
         | (if ?c then _ else _) = _ =>
             destruct c; [injection Ev as <-; eexists; reflexivity|]
         end.
  discriminate Ev.
Qed.

Lemma calculateMemoryReads_not_a_number m k seq b :
  RequireObjectCoercible m = inr tt -> converts host m ->
  In k numeric_fields -> ToNumber host (get m k) = of_number NaN ->
  calculateMemoryReads host m seq b = inr NaN.
Proof.
  intros Hm C Hk Hnan.
  pose proof (calculateModelParameters_not_a_number m k Hm C Hk Hnan) as EP.
  destruct (converts_dimensions m C) as (h & L & i & v & a & kv & Eh & EL & Ei & Ev & Ea & Ekv).
  destruct C as [_ [key Ekey]].
  destruct (bytes_convert key) as [bytes Eb].
  unfold calculateMemoryReads.
  rewrite Hm, bind_inr, Ekey, bind_inr. cbv zeta.
  rewrite EP, EL, Eh, Eb. evaluate. rewrite ?bind_inr. evaluate. absorb.
  reflexivity.
Qed.

Lemma calculateThroughput_not_a_number cfg m k mem flops b seq :
  JSON_parse host cfg = inr m ->
  RequireObjectCoercible m = inr tt -> converts host m ->
  In k numeric_fields -> ToNumber host (get m k) = of_number NaN ->
  calculateThroughput host cfg mem flops b seq = inr NaN.
Proof.
  intros Hparse Hm C Hk Hnan.
  destruct (calculateOperations_converts host m seq b Hm C) as [ops Eops].
  unfold calculateThroughput.
  rewrite Hparse, bind_inr.
  rewrite (calculateMemoryReads_not_a_number m k seq b Hm C Hk Hnan), bind_inr.
  evaluate. rewrite Eops, bind_inr. evaluate. rewrite catch_number.
  absorb. reflexivity.
Qed.

End MissingField.

(** ** More hardware, larger batches *)

Section Scaling.

Local Open Scope Q_scope.

Variable r : ArchitectureRecord.
Variables gated tied : bool.
Hypothesis Hvalid : valid r.

Lemma Qdiv_cross a1 a2 d1 d2 :
  0 < d1 -> 0 < d2 -> a1 * d2 <= a2 * d1 -> a1 / d1 <= a2 / d2.
Proof.
  intros H1 H2 H.
  apply Qle_shift_div_l; [assumption|].
  assert (E : a1 / d1 * d2 == a1 * d2 / d1) by (field; lra).
  rewrite E. apply Qle_shift_div_r; assumption.
Qed.

(** More bandwidth and more compute power never lower the throughput. *)
Lemma throughput_hardware_mono bytes bw1 bw2 tf1 tf2 b s :
  0 < bytes -> 0 < bw1 -> bw1 <= bw2 -> 0 < tf1 -> tf1 <= tf2 ->
  0 < b -> 0 < s ->
  Spec.throughput r gated tied bytes bw1 tf1 b s <=
  Spec.throughput r gated tied bytes bw2 tf2 b s.
Proof.
  intros Hbytes Hbw Hbw' Htf Htf' Hb Hs.
  pose proof (memory_traffic_pos r gated tied Hvalid bytes s b Hbytes Hs Hb) as HM.
  pose proof (operation_count_pos r gated Hvalid s b Hs Hb) as HO.
  unfold Spec.throughput.
  apply Qdiv_antitone; [lra| |].
  - apply Qplus_pos;
      [apply memoryTimeSeconds_pos | apply computeTimeSeconds_pos];
      assumption || lra.
  - apply Qplus_le_compat.
    + unfold Spec.memoryTimeSeconds. apply Qdiv_antitone; lra.
    + unfold Spec.computeTimeSeconds. apply Qdiv_antitone; lra.
Qed.

(** The time of one step is a fixed part, reading the parameters, and a
    part that grows with the batch. *)
Lemma step_time_affine bytes bw tf b s :
  0 < bw -> 0 < tf ->
  Spec.memoryTimeSeconds r gated tied bytes bw s b +
  Spec.computeTimeSeconds r gated tf s b ==
  Spec.memoryTimeSeconds r gated tied bytes bw s 0 +
  b * (Spec.memoryTimeSeconds r gated tied bytes bw s 1 -
       Spec.memoryTimeSeconds r gated tied bytes bw s 0 +
       Spec.computeTimeSeconds r gated tf s 1).
Proof.
  intros Hbw Htf.
  unfold Spec.memoryTimeSeconds, Spec.computeTimeSeconds, Spec.memory_traffic,
    Spec.kv_cache_elements, Spec.operation_count.
  field. lra.
Qed.

Lemma step_time_parts bytes bw tf s :
  0 < bytes -> 0 < bw -> 0 < tf -> 0 < s ->
  0 < Spec.memoryTimeSeconds r gated tied bytes bw s 0 /\
  0 < Spec.memoryTimeSeconds r gated tied bytes bw s 1 -
      Spec.memoryTimeSeconds r gated tied bytes bw s 0 +
      Spec.computeTimeSeconds r gated tf s 1.
Proof.
  intros Hbytes Hbw Htf Hs.
  destruct (valid_Q r Hvalid) as (Hh & HL & Hi & Hv & Ha & Hk).
  pose proof (parameter_count_pos r gated tied Hvalid) as HP.
  pose proof (computeTimeSeconds_pos r gated Hvalid tf s 1 Htf Hs eq_refl) as HC.
  split.
  - unfold Spec.memoryTimeSeconds, Spec.memory_traffic, Spec.kv_cache_elements.
    apply Qdiv_pos; [|lra].
    apply Qmult_lt_0_compat; [|assumption].
    set (P := Spec.parameter_count r gated tied) in *. lra.
  - assert (E : Spec.memoryTimeSeconds r gated tied bytes bw s 1 -
                Spec.memoryTimeSeconds r gated tied bytes bw s 0 ==
                s * inject_Z (num_hidden_layers r) * inject_Z (hidden_size r) *
                2 * bytes / (bw * 1000000000)).
    { unfold Spec.memoryTimeSeconds, Spec.memory_traffic, Spec.kv_cache_elements.
      field. lra. }
    rewrite E.
    apply Qplus_pos; [|assumption].
    apply Qdiv_pos; [|lra].
    repeat apply Qmult_lt_0_compat; assumption || reflexivity.
Qed.

(** A larger batch gives no less throughput in total and no more for each
    user. *)
Lemma throughput_batch bytes bw tf b1 b2 s :
  0 < bytes -> 0 < bw -> 0 < tf -> 0 < b1 -> b1 <= b2 -> 0 < s ->
  Spec.throughput r gated tied bytes bw tf b1 s <=
  Spec.throughput r gated tied bytes bw tf b2 s /\
  Spec.throughput r gated tied bytes bw tf b2 s / b2 <=
  Spec.throughput r gated tied bytes bw tf b1 s / b1.
Proof.
  intros Hbytes Hbw Htf Hb1 Hb Hs.
  destruct (step_time_parts bytes bw tf s Hbytes Hbw Htf Hs) as [HA HG].
  pose proof (step_time_affine bytes bw tf b1 s Hbw Htf) as E1.
  pose proof (step_time_affine bytes bw tf b2 s Hbw Htf) as E2.
  unfold Spec.throughput.
  set (D1 := Spec.memoryTimeSeconds r gated tied bytes bw s b1 +
             Spec.computeTimeSeconds r gated tf s b1) in *.
  set (D2 := Spec.memoryTimeSeconds r gated tied bytes bw s b2 +
             Spec.computeTimeSeconds r gated tf s b2) in *.
  set (A := Spec.memoryTimeSeconds r gated tied bytes bw s 0) in *.
  set (G := Spec.memoryTimeSeconds r gated tied bytes bw s 1 - A +
            Spec.computeTimeSeconds r gated tf s 1) in *.
  assert (HbG1 : 0 < b1 * G) by (apply Qmult_lt_0_compat; assumption).
  assert (HbG : 0 <= (b2 - b1) * G) by (apply Qmult_le_0_compat; lra).
  assert (HbA : 0 <= (b2 - b1) * A) by (apply Qmult_le_0_compat; lra).
  assert (HD1 : 0 < D1) by lra.
  assert (HD2 : 0 < D2) by lra.
  split.
  - apply Qdiv_cross; [assumption | assumption|].
    rewrite E1, E2. nra.
  - assert (F1 : b1 / D1 / b1 == 1 / D1) by (field; lra).
    assert (F2 : b2 / D2 / b2 == 1 / D2) by (field; lra).
    rewrite F1, F2. apply Qdiv_antitone; lra.
Qed.

End Scaling.

(** ** What the debounce keeps *)

Section Tracking.

Lemma final_app {A : Type} (d : A) l v : final d (l ++ [v]) = v.
Proof.
  revert d. induction l as [|a l IH]; intros d; simpl; [reflexivity | apply IH].
Qed.

Lemma tracking_mount : tracking mount.
Proof.
  split; [|reflexivity]. right. eexists. simpl.
  split; [reflexivity|]. simpl. repeat split. lia.
Qed.

(** Time passes: the one timer runs if it is due, and then the debounced
    text is the text of the field. *)
Lemma tracking_advance t w :
  tracking w ->
  tracking (advance t w) /\ now (advance t w) = Nat.max (now w) t /\
  config (advance t w) = config w /\
  ((exists tm, timers w = [tm] /\ (due tm <= t)%nat) \/ timers w = [] ->
   timers (advance t w) = [] /\ debounced (advance t w) = config w).
Proof.
  intros [[[Ht Hd]|(tm & Ht & Hc & Hp & Hdue)] Hlast].
  - unfold advance. rewrite Ht. simpl. rewrite Ht. unfold tracking. simpl.
    split; [split; [left; split; [reflexivity | assumption] | assumption]|].
    split; [reflexivity|]. split; [reflexivity|].
    intros _. split; [reflexivity | assumption].
  - unfold advance. rewrite Ht. simpl. rewrite Ht. simpl.
    destruct (Nat.leb_spec (due tm) t) as [Hfire|Hwait].
    + unfold fire, setDebounced. cbn [debounced payload]. rewrite Ht. simpl.
      rewrite Nat.eqb_refl. simpl.
      destruct (String.eqb_spec (payload tm) (debounced w)) as [E|E];
        unfold tracking; simpl.
      * split; [split; [left; split; [reflexivity | congruence] | assumption]|].
        split; [lia|]. split; [reflexivity|].
        intros _. split; [reflexivity | congruence].
      * split; [split; [left; split; [reflexivity | assumption] | apply final_app]|].
        split; [lia|]. split; [reflexivity|].
        intros _. split; [reflexivity | assumption].
    + rewrite Ht. unfold tracking. simpl.
      split; [split; [right | assumption]|].
      * exists tm. split; [reflexivity|]. split; [assumption|].
        split; [assumption | lia].
      * split; [reflexivity|]. split; [reflexivity|].
        intros [(tm' & E & Hle)|E]; [|discriminate E].
        injection E as <-. lia.
Qed.

(** An edit: the timer of the edit before is cleared, whether it has run
    or not, and one timer is set for the new text. *)
Lemma tracking_setConfig text w :
  tracking w ->
  tracking (setConfig text w) /\ now (setConfig text w) = now w /\
  config (setConfig text w) = text.
Proof.
  intros T. unfold setConfig.
  destruct (String.eqb_spec text (config w)) as [E|E]; [auto|].
  destruct T as [Hone Hlast].
  unfold useDebounce_effect. cbn [cleanup].
  assert (Hclear : timers (match cleanup w with
                           | Some i =>
                               clearTimeout i
                                 {| now := now w; timers := timers w;
                                    next_id := next_id w; config := text;
                                    debounced := debounced w;
                                    cleanup := cleanup w;
                                    effect_runs := effect_runs w |}
                           | None =>
                               {| now := now w; timers := timers w;
                                  next_id := next_id w; config := text;
                                  debounced := debounced w;
                                  cleanup := cleanup w;
                                  effect_runs := effect_runs w |}
                           end) = []).
  { destruct Hone as [[Ht _]|(tm & Ht & Hc & _)].
    - destruct (cleanup w); simpl; rewrite Ht; reflexivity.
    - rewrite Hc. simpl. rewrite Ht. simpl. rewrite Nat.eqb_refl. reflexivity. }
  destruct (cleanup w) as [i|]; simpl in *; rewrite Hclear;
    (split; [|split; reflexivity]);
    (split; [|assumption]); right; eexists; simpl;
    (split; [reflexivity|]); simpl; repeat split; lia.
Qed.

Lemma tracking_edits es :
  forall w B,
    tracking w -> (now w <= B)%nat -> Forall (fun e => (fst e <= B)%nat) es ->
    tracking (edits es w) /\ (now (edits es w) <= B)%nat /\
    config (edits es w) = final (config w) (map snd es).
Proof.
  induction es as [|[t text] es IH]; intros w B T Hnow Hes.
  - simpl. auto.
  - inversion Hes as [|e l Ht Hrest]; subst. simpl in Ht.
    destruct (tracking_advance t w T) as (T1 & N1 & C1 & _).
    destruct (tracking_setConfig text (advance t w) T1) as (T2 & N2 & C2).
    destruct (IH (setConfig text (advance t w)) B T2) as (T3 & N3 & C3).
    + rewrite N2, N1. lia.
    + assumption.
    + simpl. split; [assumption|]. split; [assumption|].
      rewrite C3, C2. reflexivity.
Qed.

(** The time of a timer that has run. *)
Lemma advance_fires_now t text T w :
  pending w t text -> (t + 200 <= T)%nat -> now (advance T w) = T.
Proof.
  intros (tm & Ht & Hpay & Hdue & _ & Hcfg & Hnow) HT.
  unfold advance. rewrite Ht. simpl. rewrite Ht. simpl.
  destruct (Nat.leb_spec (due tm) T); [|lia].
  unfold fire, setDebounced. cbn [debounced].
  destruct (String.eqb (payload tm) (debounced w)); simpl; lia.
Qed.

Lemma pending_mount : pending mount 0 "".
Proof. eexists. simpl. repeat split. Qed.

(** Edits 200 ms or more apart: the timer of each has run before the
    next, so the curve effect runs for each text in turn. *)
Lemma spaced_runs es :
  forall w t text T,
    pending w t text -> text <> debounced w ->
    spaced t es -> changing text es ->
    (final t (map fst es) + 200 <= T)%nat ->
    effect_runs (advance T (edits es w)) = effect_runs w ++ text :: map snd es /\
    timers (advance T (edits es w)) = [].
Proof.
  induction es as [|[t' text'] es IH]; intros w t text T Hp Hneq Hsp Hch HT.
  - simpl in HT. change (edits [] w) with w.
    destruct (advance_fires t text T w Hp HT) as (H1 & _ & _ & H4).
    split; [|assumption]. rewrite H4. simpl map.
    destruct (String.eqb_spec text (debounced w)); [contradiction | reflexivity].
  - simpl in Hsp, Hch, HT. destruct Hsp as [Ht' Hsp]. destruct Hch as [Hneq' Hch].
    destruct (advance_fires t text t' w Hp Ht') as (H1 & H2 & H3 & H4).
    pose proof (advance_fires_now t text t' w Hp Ht') as Hnow.
    destruct (setConfig_schedules text' (advance t' w)) as (Hp' & Hd' & Hr').
    { congruence. }
    { left. assumption. }
    rewrite Hnow in Hp'.
    destruct (IH (setConfig text' (advance t' w)) t' text' T Hp') as [E1 E2].
    + congruence.
    + assumption.
    + assumption.
    + assumption.
    + change (edits ((t', text') :: es) w)
        with (edits es (setConfig text' (advance t' w))).
      split; [|assumption]. rewrite E1, Hr', H4. simpl map.
      destruct (String.eqb_spec text (debounced w)); [contradiction|].
      rewrite <- app_assoc. reflexivity.
Qed.

End Tracking.

(** * Further theorems *)

(** ** The hardware controls *)

(** X1.  [clamp(v, min, max)], for [min <= max]: the result lies between
    [min] and [max] for every [v] that is a number, the infinities
    included; NaN is not clamped, it comes out as NaN. *)
Theorem clamp_in_range v min max :
  le min max = true ->
  (v <> NaN ->
   le min (clamp v min max) = true /\ le (clamp v min max) max = true) /\
  clamp NaN min max = NaN.
Proof.
  intros H. split; [|reflexivity].
  intros Hv. apply clamp_bounds; assumption.
Qed.

Lemma clamp_in_range_witness :
  le 1 (clamp (Inf false) 1 1024) = true /\
  le (clamp (Inf false) 1 1024) 1024 = true.
Proof.
  refine (proj1 (clamp_in_range (Inf false) 1 1024 _) _).
  - reflexivity.
  - discriminate.
Defined.

(** X2.  Whatever is typed into the number field of a control, and
    whatever [parseFloat] makes of it, the handler stores a number of the
    range of that control, and leaves the other three controls as they
    are. *)
Theorem onNumberChange_in_range parseFloat c value st :
  within (range_of c) (value_of c (onNumberChange parseFloat c value st)) /\
  forall c', c' <> c ->
    value_of c' (onNumberChange parseFloat c value st) = value_of c' st.
Proof.
  split; [apply stored_within|].
  intros c' H. unfold onNumberChange, numChange.
  apply value_of_setter_other. assumption.
Qed.

(** X3.  When [parseFloat] gives NaN (an empty or unreadable field) or a
    zero, [||] replaces it by the lower end of the range, and that is what
    the handler stores: typing [0] into the batch size gives 1. *)
Theorem onNumberChange_falls_back parseFloat c value st :
  parseFloat value = NaN \/ is_zero (parseFloat value) = true ->
  value_of c (onNumberChange parseFloat c value st) = Range.min (range_of c).
Proof.
  intros H. unfold onNumberChange, numChange.
  rewrite value_of_setter, (or_else_falsy _ _ H). apply clamp_min.
Qed.

Lemma onNumberChange_falls_back_witness :
  value_of MaxSeqLen (onNumberChange sample_parseFloat MaxSeqLen "0" initial)
  = 1024%js.
Proof.
  refine (onNumberChange_falls_back sample_parseFloat MaxSeqLen "0" initial _).
  right. reflexivity.
Defined.

(** X4.  A number strictly inside the range is stored as it is typed:
    nothing rounds it, also not for the batch size and the maximum
    sequence length, whose controls are marked [integer]. *)
Theorem onNumberChange_keeps parseFloat c value st q :
  parseFloat value = Fin q ->
  le (Fin q) (Range.min (range_of c)) = false ->
  le (Range.max (range_of c)) (Fin q) = false ->
  value_of c (onNumberChange parseFloat c value st) = Fin q.
Proof.
  intros E Hlo Hhi. unfold onNumberChange, numChange.
  destruct (le_defined _ _ (range_ordered c)) as [Dlo Dhi].
  rewrite value_of_setter, E, or_else_truthy.
  - apply clamp_inside; assumption.
  - discriminate.
  - apply (range_min_positive c). assumption.
Qed.

Lemma onNumberChange_keeps_witness :
  value_of BatchSize (onNumberChange (fun _ => Fin (5 # 2)) BatchSize "2.5" initial)
  = Fin (5 # 2).
Proof.
  refine (onNumberChange_keeps (fun _ => Fin (5 # 2)) BatchSize "2.5" initial
            (5 # 2) _ _ _); reflexivity.
Defined.

Lemma in_ranges_handle parseFloat e st :
  slider_in_range e -> in_ranges st -> in_ranges (handle parseFloat e st).
Proof.
  destruct e as [c value|c v]; simpl; intros He H.
  - apply in_ranges_onNumberChange. assumption.
  - intros c'.
    assert (D : c' = c \/ c' <> c) by (destruct c, c'; auto; right; discriminate).
    unfold onSliderChange, slideChange.
    destruct D as [->|D].
    + rewrite value_of_setter. assumption.
    + rewrite value_of_setter_other by assumption. apply H.
Qed.

(** X5.  From the first render on, through any sequence of typed values
    and slider moves, the four controls hold numbers of their ranges,
    provided each slider reports a value of the range it is given. *)
Theorem controls_stay_in_ranges parseFloat events :
  Forall slider_in_range events ->
  in_ranges (fold_left (fun st e => handle parseFloat e st) events initial).
Proof.
  intros H.
  assert (G : forall st, in_ranges st ->
                in_ranges (fold_left (fun st e => handle parseFloat e st) events st)).
  { induction H as [|e events He H IH]; intros st Hst; simpl.
    - assumption.
    - apply IH. apply in_ranges_handle; assumption. }
  apply G. apply in_ranges_initial.
Qed.

Lemma controls_stay_in_ranges_witness :
  in_ranges
    (fold_left (fun st e => handle sample_parseFloat e st)
               [Typed BatchSize "0"; Slid MaxSeqLen 2048;
                Typed MemoryBandwidth "99999"]
               initial).
Proof.
  refine (controls_stay_in_ranges sample_parseFloat _ _).
  repeat constructor.
Defined.

(** ** The curves the page shows *)

Lemma samples_point ms i (x : number) :
  nth_error (map number_of_Z (Spec.samples ms)) i = Some x ->
  x = Fin (inject_Z (1 + Z.of_nat i * Spec.step ms)) /\
  (1 <= inject_Z (1 + Z.of_nat i * Spec.step ms))%Q.
Proof.
  intros H. rewrite nth_error_map in H.
  destruct (nth_error (Spec.samples ms) i) as [z|] eqn:E; [|discriminate H].
  assert (Hlt : (i < length (Spec.samples ms))%nat).
  { apply nth_error_Some. rewrite E. discriminate. }
  rewrite (samples_nth ms i Hlt) in E.
  simpl in H. unfold number_of_Z in H. split; [congruence|].
  pose proof (step_pos ms) as Hk.
  change 1%Q with (inject_Z 1). rewrite <- Zle_Qle.
  assert (0 <= Z.of_nat i * Spec.step ms)%Z by (apply Z.mul_nonneg_nonneg; lia).
  lia.
Qed.

Lemma Forall2_Forall_r {A B : Type} (R : A -> B -> Prop) (P : B -> Prop) l l' :
  Forall2 R l l' -> (forall a b, R a b -> P b) -> Forall P l'.
Proof.
  intros H HP. induction H as [|x y l l' Hxy H IH]; constructor.
  - apply (HP x). assumption.
  - assumption.
Qed.

Lemma Forall2_chain_eq {A B : Type} (R : A -> B -> Prop) (S : B -> B -> Prop)
    xs ty py :
  Forall2 R xs ty -> Forall2 S ty py ->
  (forall x t p, R x t -> S t p -> p = t) -> py = ty.
Proof.
  intros H. revert py. induction H as [|x t xs ty Hxt H IH]; intros py Hp HE.
  - inversion Hp. reflexivity.
  - inversion Hp as [|t' p ty' py' Htp Hrest]; subst.
    f_equal; [apply (HE x); assumption | apply IH; assumption].
Qed.

Section CurvePoints.

Context (host : Host) (st : AppState) (m : value) (r : ArchitectureRecord)
        (tag : option string) (bw tf b ms : Q).

Hypothesis Hparse : JSON_parse host (dCfg st) = inr m.
Hypothesis Hm : describes m r.
Hypothesis Hr : valid r.
Hypothesis Htag : precision m tag.
Hypothesis Hown : own_tag tag.
Hypothesis Ebw : memoryBandwidth st = Fin bw.
Hypothesis Etf : computePower st = Fin tf.
Hypothesis Eb : batchSize st = Fin b.
Hypothesis Hbw : (0 < bw)%Q.
Hypothesis Htf : (0 < tf)%Q.
Hypothesis Hb : (0 < b)%Q.

(** The throughput the formulas give at the point of index [i]. *)
Let at_point (i : nat) : Q :=
  Spec.throughput r (isGated m) (isTied m) (Spec.bytesPerElement tag) bw tf b
                  (inject_Z (1 + Z.of_nat i * Spec.step ms)).

Lemma total_point ty i t :
  Forall2 (fun x t =>
             calculateThroughput host (dCfg st) (memoryBandwidth st)
                                 (computePower st) (batchSize st) x = inr t)
          (map number_of_Z (Spec.samples ms)) ty ->
  nth_error ty i = Some t -> t = Fin (Qred (at_point i)).
Proof.
  intros Hv Hi.
  destruct (Forall2_nth_error_r _ _ _ i t Hv Hi) as [x [Hx E]].
  destruct (samples_point ms i x Hx) as [-> Hs].
  rewrite Ebw, Etf, Eb in E.
  rewrite (returns_eq _ _
             (calculateThroughput_returns host (dCfg st) m r tag bw tf b _
                Hparse Hm Hr Htag Hown Hbw Htf Hb
                (Qlt_le_trans 0 1 _ eq_refl Hs))) in E.
  injection E as <-. reflexivity.
Qed.

Lemma perUser_point ty py i p :
  Forall2 (fun x t =>
             calculateThroughput host (dCfg st) (memoryBandwidth st)
                                 (computePower st) (batchSize st) x = inr t)
          (map number_of_Z (Spec.samples ms)) ty ->
  Forall2 (per_user (batchSize st)) ty py ->
  nth_error py i = Some p -> p = Fin (Qred (at_point i / b)).
Proof.
  intros Hv Hp Hi.
  destruct (Forall2_nth_error_r _ _ _ i p Hp Hi) as [t [Ht E]].
  rewrite (total_point ty i t Hv Ht) in E. unfold per_user in E.
  rewrite Eb in E. subst p.
  assert (Hpos : (0 < at_point i)%Q).
  { destruct (Forall2_nth_error_r _ _ _ i t Hv Ht) as [x [Hx _]].
    destruct (samples_point ms i x Hx) as [_ Hs].
    apply (throughput_pos r _ _ Hr _ bw tf b _ (bytesPerElement_pos tag)
             Hbw Htf Hb).
    apply Qlt_le_trans with 1%Q; [reflexivity | exact Hs]. }
  rewrite div_Fin.
  - f_equal. apply Qred_complete. rewrite Qred_correct. reflexivity.
  - rewrite Qred_correct. apply Qlt_le_weak. assumption.
  - assumption.
Qed.

Lemma at_point_pos i : (0 < at_point i)%Q.
Proof.
  pose proof (step_pos ms) as Hk.
  apply (throughput_pos r _ _ Hr _ bw tf b _ (bytesPerElement_pos tag)
           Hbw Htf Hb).
  change 0%Q with (inject_Z 0). rewrite <- Zlt_Qlt.
  assert (0 <= Z.of_nat i * Spec.step ms)%Z by (apply Z.mul_nonneg_nonneg; lia).
  lia.
Qed.

Lemma at_point_antitone i j : (i <= j)%nat -> (at_point j <= at_point i)%Q.
Proof.
  intros H. pose proof (step_pos ms) as Hk.
  apply (throughput_antitone r _ _ Hr _ bw tf b _ _ (bytesPerElement_pos tag)
           Hbw Htf Hb).
  - change 0%Q with (inject_Z 0). rewrite <- Zlt_Qlt.
    assert (0 <= Z.of_nat i * Spec.step ms)%Z by (apply Z.mul_nonneg_nonneg; lia).
    lia.
  - rewrite <- Zle_Qle. nia.
Qed.

End CurvePoints.

(** X6.  With the four controls in their ranges and a text in the field,
    the loop of the effect comes to its end, nothing is thrown, and the
    two curves it publishes have the same x-coordinates, between 800 and
    1599 of them, with one y for each. *)
Theorem curves_in_ranges (host : Host) st :
  in_ranges st -> dCfg st <> "" ->
  exists st',
    curve_effect host st = inr (Some st') /\
    (800 <= length (Trace.x (total (throughputData st'))) <= 1599)%nat /\
    Trace.x (perUser (throughputData st')) = Trace.x (total (throughputData st')) /\
    length (Trace.y (total (throughputData st'))) =
      length (Trace.x (total (throughputData st'))) /\
    length (Trace.y (perUser (throughputData st'))) =
      length (Trace.x (total (throughputData st'))).
Proof.
  intros Hin Hcfg.
  destruct (in_ranges_Q st Hin)
    as (bw & tf & b & ms & Ebw & Etf & Eb & Ems & Hbw & Htf & Hb & _ & Hms & _).
  assert (H1 : (1 <= ms)%Q) by lra.
  destruct (curve_effect_samples host st ms Ems H1 Hcfg) as (ty & py & E & Lt & Lp).
  destruct (samples_count ms (Qfloor_ge_1 ms H1)) as [Hmax Hmin].
  assert (H800 : (800 <= Qfloor ms)%Z).
  { assert (H : (800 <= ms)%Q) by lra.
    apply Qfloor_resp_le in H. exact H. }
  eexists. split; [exact E|]. simpl. rewrite length_map.
  split; [split; [apply Hmin; assumption | assumption]|].
  split; [reflexivity|]. split; assumption.
Qed.

Lemma curves_in_ranges_witness :
  exists st',
    curve_effect (sample_host sample_texts) sample_state = inr (Some st') /\
    (800 <= length (Trace.x (total (throughputData st'))) <= 1599)%nat /\
    Trace.x (perUser (throughputData st')) = Trace.x (total (throughputData st')) /\
    length (Trace.y (total (throughputData st'))) =
      length (Trace.x (total (throughputData st'))) /\
    length (Trace.y (perUser (throughputData st'))) =
      length (Trace.x (total (throughputData st'))).
Proof.
  refine (curves_in_ranges (sample_host sample_texts) sample_state _ _).
  - intros c. destruct c; split; vm_compute; reflexivity.
  - discriminate.
Defined.



Lemma per_user_zero bs b ty py :
  bs = Fin b -> (0 < b)%Q -> Forall (eq 0%js) ty ->
  Forall2 (per_user bs) ty py -> Forall (eq 0%js) py.
Proof.
  intros -> Hb Hty Hp. induction Hp as [|t p ty py Htp Hp IH]; constructor.
  - inversion Hty as [|t' ty' H0 Hrest]; subst.
    unfold per_user in Htp. rewrite Htp.
    symmetry. apply div_0_Fin. assumption.
  - apply IH. inversion Hty; assumption.
Qed.

(** X8.  While the text in the field does not parse, or parses to
    [null], the effect still publishes two curves, of 800 points or more
    with the controls in their ranges, and every y of both is 0. *)
Theorem unusable_text_flat_curves (host : Host) st :
  in_ranges st -> dCfg st <> "" ->
  (exists e, JSON_parse host (dCfg st) = inl e) \/
  JSON_parse host (dCfg st) = inr VNull ->
  exists st',
    curve_effect host st = inr (Some st') /\
    (800 <= length (Trace.y (total (throughputData st'))))%nat /\
    Forall (eq 0%js) (Trace.y (total (throughputData st'))) /\
    Forall (eq 0%js) (Trace.y (perUser (throughputData st'))).
Proof.
  intros Hin Hcfg Hbad.
  destruct (in_ranges_Q st Hin)
    as (bw & tf & b & ms & Ebw & Etf & Eb & Ems & Hbw & Htf & Hb & _ & Hms & _).
  assert (H1 : (1 <= ms)%Q) by lra.
  destruct (curve_effect_samples host st ms Ems H1 Hcfg) as (ty & py & E & Lt & _).
  destruct (samples_count ms (Qfloor_ge_1 ms H1)) as [_ Hmin].
  assert (H800 : (800 <= Qfloor ms)%Z).
  { assert (H : (800 <= ms)%Q) by lra.
    apply Qfloor_resp_le in H. exact H. }
  pose proof (curve_effect_values host st _ Hcfg E) as Hv.
  destruct (curve_effect_invariant host st _ Hcfg E) as (_ & _ & Hp).
  simpl in Hv, Hp.
  assert (Hty : Forall (eq 0%js) ty).
  { apply (Forall2_Forall_r _ _ _ _ Hv). intros x t Ex.
    rewrite (calculateThroughput_unusable host _ _ _ _ _ Hbad) in Ex.
    injection Ex as <-. reflexivity. }
  eexists. split; [exact E|]. simpl.
  split; [rewrite Lt; apply Hmin; assumption|].
  split; [assumption|].
  apply (per_user_zero _ b ty py Eb); [lra | assumption | assumption].
Qed.

Lemma unusable_text_flat_curves_witness :
  exists st',
    curve_effect (sample_host sample_texts) unfinished_state = inr (Some st') /\
    (800 <= length (Trace.y (total (throughputData st'))))%nat /\
    Forall (eq 0%js) (Trace.y (total (throughputData st'))) /\
    Forall (eq 0%js) (Trace.y (perUser (throughputData st'))).
Proof.
  refine (unusable_text_flat_curves (sample_host sample_texts) unfinished_state
            _ _ _).
  - intros c. destruct c; split; vm_compute; reflexivity.
  - discriminate.
  - left. exists SyntaxError. reflexivity.
Defined.

(** X9.  With a batch size of 1, the state of the first render, the
    per-user curve is the total curve, point for point, whatever the
    text. *)
Theorem single_user_curves_coincide (host : Host) st st' :
  batchSize st = 1%js -> dCfg st <> "" ->
  curve_effect host st = inr (Some st') ->
  perUser (throughputData st') = total (throughputData st').
Proof.
  intros Eb Hcfg E.
  pose proof (curve_effect_values host st st' Hcfg E) as Hv.
  destruct (curve_effect_invariant host st st' Hcfg E) as (Hx & _ & Hp).
  assert (Hy : Trace.y (perUser (throughputData st')) =
               Trace.y (total (throughputData st'))).
  { apply (Forall2_chain_eq _ _ _ _ _ Hv Hp).
    intros x t p Ex Hpu. unfold per_user in Hpu. rewrite Eb in Hpu.
    rewrite Hpu. apply div_1.
    apply (calculateThroughput_canonical host _ _ _ _ _ _ Ex). }
  destruct (perUser (throughputData st')) as [x1 y1].
  destruct (total (throughputData st')) as [x2 y2].
  simpl in Hx, Hy. congruence.
Qed.

Lemma single_user_curves_coincide_witness :
  perUser (throughputData single_user_state_after) =
  total (throughputData single_user_state_after).
Proof.
  refine (single_user_curves_coincide (sample_host sample_texts)
            single_user_state single_user_state_after _ _ _).
  - reflexivity.
  - discriminate.
  - vm_compute. reflexivity.
Defined.

(** ** The calculators *)

(** X10.  When one of the six dimensions is absent from the
    configuration, or holds something that converts to NaN, and no
    conversion throws, the throughput is NaN at every point, whatever the
    hardware, the batch size and the sequence length; it is not 0, so no
    curve is drawn. *)
Theorem throughput_of_missing_dimension (host : Host) cfg m k mem flops b seq :
  JSON_parse host cfg = inr m ->
  RequireObjectCoercible m = inr tt -> converts host m ->
  In k numeric_fields ->
  get m k = VUndefined \/ ToNumber host (get m k) = of_number NaN ->
  calculateThroughput host cfg mem flops b seq = inr NaN /\
  calculateModelParameters host m = inr NaN /\
  calculateMemoryReads host m seq b = inr NaN.
Proof.
  intros Hparse Hm C Hk Hnan.
  assert (E : ToNumber host (get m k) = of_number NaN).
  { destruct Hnan as [->|H]; [reflexivity | assumption]. }
  split; [|split].
  - apply (calculateThroughput_not_a_number host cfg m k); assumption.
  - apply (calculateModelParameters_not_a_number host m k); assumption.
  - apply (calculateMemoryReads_not_a_number host m k); assumption.
Qed.

Lemma throughput_of_missing_dimension_witness :
  calculateThroughput empty_object_host "{}" 1792 209 1 1 = inr NaN /\
  calculateModelParameters empty_object_host (VObject []) = inr NaN /\
  calculateMemoryReads empty_object_host (VObject []) 1 1 = inr NaN.
Proof.
  refine (throughput_of_missing_dimension empty_object_host "{}" (VObject [])
            "intermediate_size" 1792 209 1 1 _ _ _ _ _).
  - reflexivity.
  - reflexivity.
  - split.
    + intros k Hk. exists NaN.
      simpl in Hk. decompose [or] Hk; subst; try reflexivity; contradiction.
    + exists "undefined". reflexivity.
  - simpl. tauto.
  - left. reflexivity.
Defined.







(** ** The debounce *)

Lemma tracking_edits_any es : forall w, tracking w -> tracking (edits es w).
Proof.
  induction es as [|[t text] es IH]; intros w T; simpl; [assumption|].
  apply IH. apply tracking_setConfig. apply tracking_advance. assumption.
Qed.

(** X14.  Whatever the user types and whenever, from the first render on
    the hook never has more than one timer live, a live timer carries the
    text the field holds at that moment and is the one the next cleanup
    clears, so no text that has been replaced is ever delivered; and the
    last run of the curve effect was for the debounced text. *)
Theorem one_timer_with_the_current_text es T :
  let w := advance T (edits es mount) in
  (length (timers w) <= 1)%nat /\
  (forall tm, In tm (timers w) ->
              payload tm = config w /\ cleanup w = Some (id tm)) /\
  final "" (effect_runs w) = debounced w.
Proof.
  cbv zeta.
  destruct (tracking_advance T (edits es mount)
              (tracking_edits_any es mount tracking_mount))
    as ([[[Ht Hd]|(tm & Ht & Hc & Hp & Hdue)] Hlast] & _).
  - rewrite Ht. split; [simpl; lia|]. split; [intros tm []|assumption].
  - rewrite Ht. split; [simpl; lia|]. split; [|assumption].
    intros tm' [<-|[]]. split; assumption.
Qed.

(** X15.  Once 200 ms have passed after the last edit, whatever the edits
    were and however they were spaced, no timer is left, the debounced
    text is the text of the field, which is the text of the last edit,
    and the last run of the curve effect was for that text. *)
Theorem debounce_settles es T :
  Forall (fun e => (fst e + 200 <= T)%nat) es -> (200 <= T)%nat ->
  let w := advance T (edits es mount) in
  timers w = [] /\
  config w = final "" (map snd es) /\
  debounced w = config w /\
  final "" (effect_runs w) = config w.
Proof.
  intros Hes HT. cbv zeta.
  destruct (tracking_edits es mount (T - 200) tracking_mount) as (Tr & Hnow & Hcfg).
  - simpl. lia.
  - apply Forall_impl with (2 := Hes). intros [t text] H. simpl in *. lia.
  - destruct (tracking_advance T (edits es mount) Tr) as ([_ Hlast] & _ & Hc & Hfire).
    destruct Hfire as [Ht Hd].
    { destruct Tr as [[[Ht _]|(tm & Ht & _ & _ & Hdue)] _].
      - right. assumption.
      - left. exists tm. split; [assumption | lia]. }
    split; [assumption|]. split; [rewrite Hc; assumption|].
    split; [congruence|]. congruence.
Qed.

Lemma debounce_settles_witness :
  let w := advance 2000 (edits [(100, "a"); (150, "ab"); (900, "abc")]%nat mount) in
  timers w = [] /\
  config w = "abc" /\
  debounced w = config w /\
  final "" (effect_runs w) = config w.
Proof.
  refine (debounce_settles [(100, "a"); (150, "ab"); (900, "abc")]%nat 2000 _ _).
  - repeat (apply Forall_cons; [apply Nat.leb_le; vm_compute; reflexivity|]).
    apply Forall_nil.
  - apply Nat.leb_le. vm_compute. reflexivity.
Defined.



(** X17.  Edits that are 200 ms or more apart are not merged: starting
    from a page at rest, when each edit changes the text, the curve
    effect runs once for each edit, in order, with the text of that
    edit. *)
Theorem spaced_edits_all_recompute w t1 text1 rest T :
  timers w = [] -> (now w <= t1)%nat ->
  debounced w = config w -> text1 <> config w ->
  spaced t1 rest -> changing text1 rest ->
  (final t1 (map fst rest) + 200 <= T)%nat ->
  let w' := advance T (edits ((t1, text1) :: rest) w) in
  effect_runs w' = effect_runs w ++ text1 :: map snd rest /\
  timers w' = [].
Proof.
  intros Ht Hnow Hd Hneq Hsp Hch HT. cbv zeta.
  destruct (edit_quiet t1 text1 w Ht Hnow Hneq) as (Hp & Hd' & Hr).
  change (edits ((t1, text1) :: rest) w)
    with (edits rest (setConfig text1 (advance t1 w))).
  destruct (spaced_runs rest _ t1 text1 T Hp) as [E1 E2]; try assumption.
  - congruence.
  - split; [|assumption]. rewrite E1, Hr. reflexivity.
Qed.

Lemma spaced_edits_all_recompute_witness :
  let w' := advance 3000 (edits [(1100, "abc"); (1300, "abcd"); (2000, "abc")]%nat
                                typed_ab) in
  effect_runs w' = effect_runs typed_ab ++ ["abc"; "abcd"; "abc"] /\
  timers w' = [].
Proof.
  refine (spaced_edits_all_recompute typed_ab 1100 "abc"
            [(1300, "abcd"); (2000, "abc")]%nat 3000 _ _ _ _ _ _ _).
  - reflexivity.
  - vm_compute. lia.
  - reflexivity.
  - discriminate.
  - simpl. lia.
  - simpl. split; [discriminate | split; [discriminate | exact I]].
  - simpl. lia.
Defined.

(** X18.  The timer the first render sets never makes the curve
    recompute, and it does not disturb the first edit: whenever the user
    first enters a text, before that timer has run or after, the curve
    effect has run exactly once with a text, the one entered, 200 ms
    later. *)
Theorem first_edit_recomputes_once t text T :
  text <> "" -> (t + 200 <= T)%nat ->
  let w := advance T (edits [(t, text)] mount) in
  effect_runs w = [""; text] /\ recomputes w = [text] /\
  timers w = [] /\ debounced w = text.
Proof.
  intros Hneq HT. cbv zeta.
  change (edits [(t, text)] mount) with (setConfig text (advance t mount)).
  assert (Hp : pending (setConfig text (advance t mount)) t text /\
               debounced (setConfig text (advance t mount)) = "" /\
               effect_runs (setConfig text (advance t mount)) = [""]).
  { destruct (Nat.lt_ge_cases t 200) as [Hearly|Hlate].
    - apply (edit_pending 0 "" t text mount pending_mount); [lia | assumption].
    - destruct (advance_fires 0 "" t mount pending_mount Hlate)
        as (H1 & H2 & H3 & H4).
      pose proof (advance_fires_now 0 "" t mount pending_mount Hlate) as Hnow.
      destruct (setConfig_schedules text (advance t mount)) as (Hp & Hd & Hr).
      + congruence.
      + left. assumption.
      + assert (H4' : effect_runs (advance t mount) = [""])
          by (rewrite H4; reflexivity).
        rewrite Hnow in Hp. split; [assumption|]. split; congruence. }
  destruct Hp as (Hp & Hd & Hr).
  destruct (advance_fires t text T _ Hp HT) as (H1 & H2 & H3 & H4).
  assert (E : effect_runs (advance T (setConfig text (advance t mount)))
              = [""; text]).
  { rewrite H4, Hd, Hr.
    destruct (String.eqb_spec text ""); [contradiction | reflexivity]. }
  split; [assumption|]. split; [|split; assumption].
  unfold recomputes. rewrite E. simpl.
  destruct (String.eqb_spec text ""); [contradiction | reflexivity].
Qed.

Lemma first_edit_recomputes_once_witness :
  let w := advance 500 (edits [(50, "{}")]%nat mount) in
  effect_runs w = [""; "{}"] /\ recomputes w = ["{}"] /\
  timers w = [] /\ debounced w = "{}".
Proof.
  refine (first_edit_recomputes_once 50 "{}" 500 _ _).
  - discriminate.
  - lia.
Defined.
